(** * PDQ WebAssembly bindings: the C boundary of [pdq_wasm.cpp]

    A shallow embedding of the five exported functions of
    [src/cpp/pdq_wasm.cpp] and the properties of the hash codec, the
    comparator and the error signalling of the hashing entry points.

    Conventions of the embedding:
    - a [uint8_t] is a [Z] in [0, 256), a [uint16_t] a [Z] in [0, 65536),
      an [int] a [Z]; conversions that truncate are written out;
    - a [char] is an [ascii]; on wasm32 [char] is signed, see [char_code];
    - a pointer argument is an [option]: [None] is the null pointer and
      [Some buf] the memory the pointer designates, as a list;
    - a function that writes through a pointer returns the final contents
      of that memory next to its return value;
    - an array store [a[i] = v] is stdpp's [<[i:=v]> a] and an array read
      is a lookup; C leaves accesses outside the object undefined, the
      model ignores such a store and reads zero. *)

From Stdlib Require Import ZArith Lia Bool Ascii String.
From stdpp Require Import base list.

Local Open Scope Z_scope.

(** ** Memory and loops *)

(** [buf[i]] for a buffer of [uint8_t] or [uint16_t]. *)
Definition read (buf : list Z) (i : nat) : Z := default 0 (buf !! i).

(** [s[i]] for a buffer of [char]. *)
Definition read_char (s : list ascii) (i : nat) : ascii :=
  default zero (s !! i).

(** [for (int i = start; i < start + n; i++) body], a loop without early
    exit, as a fold of its body over the state it updates. *)
Fixpoint for_range {St : Type} (n start : nat) (body : nat -> St -> St)
    (s : St) : St :=
  match n with
  | O => s
  | S n' => for_range n' (S start) body (body start s)
  end.

(** ** Characters *)

(** The value of a [char] in an integer expression: [char] is signed on
    the wasm32 target, so the codes from 128 on are negative. *)
Definition char_code (c : ascii) : Z :=
  let n := Z.of_N (N_of_ascii c) in
  if n <? 128 then n else n - 256.

(** The conversion of one character in [pdq_hex_to_hash] (lines 255-261):
    the digit's value, or -1. *)
Definition hex_value (c : ascii) : Z :=
  let v := char_code c in
  if (char_code "0" <=? v) && (v <=? char_code "9") then v - char_code "0"
  else if (char_code "a" <=? v) && (v <=? char_code "f")
       then v - char_code "a" + 10
  else if (char_code "A" <=? v) && (v <=? char_code "F")
       then v - char_code "A" + 10
  else -1.

(** [const char* hexChars = "0123456789abcdef"] (line 229). *)
Definition hexChars : list ascii := list_ascii_of_string "0123456789abcdef".

(** ** pdq_hash_to_hex (lines 224-235) *)

Definition hash_to_hex_body (hashBytes : list Z) (i : nat)
    (hexOut : list ascii) : list ascii :=
  let b := read hashBytes i in
  let hexOut1 :=
    <[(i * 2)%nat := read_char hexChars (Z.to_nat (Z.land (Z.shiftr b 4) 15))]>
      hexOut in
  <[(i * 2 + 1)%nat := read_char hexChars (Z.to_nat (Z.land b 15))]> hexOut1.

Definition pdq_hash_to_hex (hashBytes : option (list Z))
    (hexOut : option (list ascii)) : option (list ascii) :=
  match hashBytes, hexOut with
  | Some hb, Some out =>
      Some (<[64%nat := zero]> (for_range 32 0 (hash_to_hex_body hb) out))
  | _, _ => hexOut
  end.

(** ** pdq_hex_to_hash (lines 245-271) *)

(** The loop of lines 250-268, with [n] iterations left at index [i]: the
    return code and the contents of [hashOut] when the function returns.
    The store of line 267 converts an [int] to [uint8_t]. *)
Fixpoint hex_to_hash_loop (n i : nat) (hexStr : list ascii)
    (hashOut : list Z) : Z * list Z :=
  match n with
  | O => (0, hashOut)
  | S n' =>
      let high := read_char hexStr (i * 2) in
      let low := read_char hexStr (i * 2 + 1) in
      let highVal := hex_value high in
      let lowVal := hex_value low in
      if (highVal <? 0) || (lowVal <? 0) then (-1, hashOut)
      else
        hex_to_hash_loop n' (S i) hexStr
          (<[i := Z.lor (Z.shiftl highVal 4) lowVal mod 256]> hashOut)
  end.

Definition pdq_hex_to_hash (hexStr : option (list ascii))
    (hashOut : option (list Z)) : Z * option (list Z) :=
  match hexStr, hashOut with
  | Some s, Some out =>
      let (rc, out') := hex_to_hash_loop 32 0 s out in (rc, Some out')
  | _, _ => (-1, hashOut)
  end.

(** A C string literal as the memory it occupies, terminator included. *)
Definition cstring (s : string) : list ascii :=
  list_ascii_of_string s ++ [zero].

(** ** pdq_hamming_distance (lines 197-215) *)

(** The right-hand side of line 207 (and 208),
    [(static_cast<uint16_t>(hi) << 8) | lo], as stored in a [uint16_t]:
    the cast and the store truncate to 16 bits. *)
Definition word_of_bytes (hi lo : Z) : Z :=
  Z.lor (Z.shiftl (hi mod 65536) 8) lo mod 65536.

Definition load_hash_body (hash : list Z) (i : nat) (w : list Z) : list Z :=
  <[i := word_of_bytes (read hash (i * 2)) (read hash (i * 2 + 1))]> w.

(** The loop of lines 206-209 for one of the two hashes; a [Hash256]
    starts out with its 16 words cleared. *)
Definition load_hash (hash : list Z) : list Z :=
  for_range 16 0 (load_hash_body hash) (replicate 16 0).

(** Modelled from the spec: [hammingNorm16] of the PDQ library
    ([pdq/cpp/common/pdqhamming.h], not in this repository), the set-bit
    count of a 16-bit word. *)
Definition hammingNorm16 (h : Z) : Z :=
  for_range 16 0 (fun j n => n + Z.b2z (Z.testbit h (Z.of_nat j))) 0.

(** Modelled from the spec: [Hash256::hammingDistance] of the PDQ library
    ([pdq/cpp/common/pdqhashtypes.h], not in this repository): XOR of
    corresponding words, set-bit counts summed across all 16 words. *)
Definition Hash256_hammingDistance (this that : list Z) : Z :=
  for_range 16 0
    (fun i n => n + hammingNorm16 (Z.lxor (read this i) (read that i))) 0.

Definition pdq_hamming_distance (hash1 hash2 : option (list Z)) : Z :=
  match hash1, hash2 with
  | Some b1, Some b2 => Hash256_hammingDistance (load_hash b1) (load_hash b2)
  | _, _ => -1
  end.

(** ** pdq_hash_from_rgb and pdq_hash_from_gray (lines 27-187) *)

(** Lines 89-92 and 171-174: the 16 words of the hash stored as 32 bytes. *)
Definition store_hash_body (w : list Z) (i : nat) (hashOut : list Z)
    : list Z :=
  let hashOut1 :=
    <[(i * 2)%nat := Z.land (Z.shiftr (read w i) 8) 255]> hashOut in
  <[(i * 2 + 1)%nat := Z.land (read w i) 255]> hashOut1.

Definition store_hash (w : list Z) (hashOut : list Z) : list Z :=
  for_range 16 0 (store_hash_body w) hashOut.

(** The product [width * height] of two [int]s, wrapping as wasm32 does. *)
Definition int_mul (a b : Z) : Z := (a * b + 2 ^ 31) mod 2 ^ 32 - 2 ^ 31.

(** The caller's memory behind [hashOut] and [qualityOut]. *)
Record outputs : Type := Outputs { out_hash : list Z; out_quality : Z }.

(** The body of a [try] block: a computation either returns or throws, and
    what it has stored before throwing stays stored. *)
Inductive outcome (A : Type) : Type :=
  | Returned (a : A)
  | Thrown.
Arguments Returned {A} a.
Arguments Thrown {A}.

Definition M (A : Type) : Type := outputs -> outcome A * outputs.

Definition ret {A : Type} (a : A) : M A := fun s => (Returned a, s).

Definition bind {A B : Type} (m : M A) (k : A -> M B) : M B :=
  fun s =>
    match m s with
    | (Returned a, s') => k a s'
    | (Thrown, s') => (Thrown, s')
    end.

Notation "x <- m ;; k" := (bind m (fun x => k))
  (at level 63, m at next level, right associativity).
Notation "m ;;; k" := (bind m (fun _ => k))
  (at level 63, right associativity).

(** A call into code that may throw: [None] is a thrown exception. *)
Definition call {A : Type} (r : option A) : M A :=
  fun s => match r with Some a => (Returned a, s) | None => (Thrown, s) end.

Definition write_hashOut (f : list Z -> list Z) : M unit :=
  fun s =>
    (Returned tt, {| out_hash := f (out_hash s); out_quality := out_quality s |}).

Definition write_qualityOut (q : Z) : M unit :=
  fun s => (Returned tt, {| out_hash := out_hash s; out_quality := q |}).

(** [delete[] p] does not throw. *)
Definition delete_array : M unit := ret tt.

(** What the bindings link against: the PDQ library
    ([pdq/cpp/hashing/pdqhashing.h], a dependency that is not part of this
    repository) with its floating-point pipeline, and the heap. A [None]
    result is an exception leaving the call. *)
Record Runtime : Type := {
  (** the type [float] *)
  float : Type;
  (** whether the heap has room for an array of that many elements; the
      answer is taken not to change in the course of one call *)
  heap_has_room : Z -> bool;
  (** [fillFloatLumaFromRGB(r, g, b, numRows, numCols, rowStride,
      colStride, luma)]: the contents of [luma] afterwards *)
  fillFloatLumaFromRGB :
    list Z -> list Z -> list Z -> Z -> Z -> Z -> Z -> option (list float);
  (** [fillFloatLumaFromGrey(grey, numRows, numCols, rowStride, colStride,
      luma)]: the contents of [luma] afterwards *)
  fillFloatLumaFromGrey :
    list Z -> Z -> Z -> Z -> Z -> option (list float);
  (** [pdqHash256FromFloatLuma(buffer1, buffer2, numRows, numCols, ...,
      hash, quality)]: the 16 words of [hash], and [quality] *)
  pdqHash256FromFloatLuma : list float -> Z -> Z -> option (list Z * Z)
}.

Section Hashing.

Variable rt : Runtime.

(** [new T[n]] with [n] an [int]: a negative length or a full heap
    throws. *)
Definition new_array (n : Z) : M unit :=
  fun s => if (0 <=? n) && heap_has_room rt n then (Returned tt, s)
           else (Thrown, s).

(** Lines 56-60: the three channels taken apart. *)
Definition split_channels_body (rgbBuffer : list Z) (i : nat)
    (ch : list Z * list Z * list Z) : list Z * list Z * list Z :=
  let '(rChannel, gChannel, bChannel) := ch in
  (<[i := read rgbBuffer (i * 3 + 0)]> rChannel,
   <[i := read rgbBuffer (i * 3 + 1)]> gChannel,
   <[i := read rgbBuffer (i * 3 + 2)]> bChannel).

Definition split_channels (rgbBuffer : list Z) (n : Z)
    : list Z * list Z * list Z :=
  let fresh := replicate (Z.to_nat n) 0 in
  for_range (Z.to_nat n) 0 (split_channels_body rgbBuffer)
    (fresh, fresh, fresh).

(** Lines 43-104, the [try] block of [pdq_hash_from_rgb]. *)
Definition hash_from_rgb_try (rgbBuffer : list Z) (width height : Z)
    : M Z :=
  new_array (int_mul width height) ;;;
  new_array (int_mul width height) ;;;
  new_array (int_mul width height) ;;;
  new_array (int_mul width height) ;;;
  new_array (int_mul width height) ;;;
  new_array (int_mul width height) ;;;
  let '(rChannel, gChannel, bChannel) :=
    split_channels rgbBuffer (int_mul width height) in
  luma <- call (fillFloatLumaFromRGB rt rChannel gChannel bChannel
                  height width width 1) ;;
  let buffer1 := luma in
  hq <- call (pdqHash256FromFloatLuma rt buffer1 height width) ;;
  write_hashOut (store_hash (fst hq)) ;;;
  write_qualityOut (snd hq) ;;;
  delete_array ;;; delete_array ;;; delete_array ;;;
  delete_array ;;; delete_array ;;; delete_array ;;;
  ret 0.

(** Lines 137-183, the [try] block of [pdq_hash_from_gray]. *)
Definition hash_from_gray_try (grayBuffer : list Z) (width height : Z)
    : M Z :=
  new_array (int_mul width height) ;;;
  new_array (int_mul width height) ;;;
  new_array (int_mul width height) ;;;
  luma <- call (fillFloatLumaFromGrey rt grayBuffer height width width 1) ;;
  let buffer1 := luma in
  hq <- call (pdqHash256FromFloatLuma rt buffer1 height width) ;;
  write_hashOut (store_hash (fst hq)) ;;;
  write_qualityOut (snd hq) ;;;
  delete_array ;;; delete_array ;;; delete_array ;;;
  ret 0.

(** [try { body } catch (...) { return -3; }] *)
Definition try_catch (body : M Z) (s : outputs) : Z * outputs :=
  match body s with
  | (Returned rc, s') => (rc, s')
  | (Thrown, s') => (-3, s')
  end.

(** The checks of lines 34-40 (and 128-134) in front of a [try] block.
    The result is the return value with the memory behind [hashOut] and
    [qualityOut] as the call leaves it. *)
Definition guarded (buffer : option (list Z)) (width height : Z)
    (hashOut : option (list Z)) (qualityOut : option Z)
    (body : list Z -> M Z) : Z * (option (list Z) * option Z) :=
  match buffer, hashOut, qualityOut with
  | Some buf, Some h, Some q =>
      if (width <=? 0) || (height <=? 0) then (-2, (hashOut, qualityOut))
      else
        let (rc, s') :=
          try_catch (body buf) {| out_hash := h; out_quality := q |} in
        (rc, (Some (out_hash s'), Some (out_quality s')))
  | _, _, _ => (-1, (hashOut, qualityOut))
  end.

Definition pdq_hash_from_rgb (rgbBuffer : option (list Z))
    (width height : Z) (hashOut : option (list Z))
    (qualityOut : option Z) : Z * (option (list Z) * option Z) :=
  guarded rgbBuffer width height hashOut qualityOut
    (fun buf => hash_from_rgb_try buf width height).

Definition pdq_hash_from_gray (grayBuffer : option (list Z))
    (width height : Z) (hashOut : option (list Z))
    (qualityOut : option Z) : Z * (option (list Z) * option Z) :=
  guarded grayBuffer width height hashOut qualityOut
    (fun buf => hash_from_gray_try buf width height).

(** What the allocations and the library calls of the two [try] blocks
    come to when the stores are left out: the hash words and the quality
    if nothing throws. The properties below are stated with these. *)
Definition allocated (n : Z) : bool := (0 <=? n) && heap_has_room rt n.

Definition rgb_computation (rgbBuffer : list Z) (width height : Z)
    : option (list Z * Z) :=
  if allocated (int_mul width height) then
    let '(rChannel, gChannel, bChannel) :=
      split_channels rgbBuffer (int_mul width height) in
    match fillFloatLumaFromRGB rt rChannel gChannel bChannel
            height width width 1 with
    | Some luma => pdqHash256FromFloatLuma rt luma height width
    | None => None
    end
  else None.

Definition gray_computation (grayBuffer : list Z) (width height : Z)
    : option (list Z * Z) :=
  if allocated (int_mul width height) then
    match fillFloatLumaFromGrey rt grayBuffer height width width 1 with
    | Some luma => pdqHash256FromFloatLuma rt luma height width
    | None => None
    end
  else None.

End Hashing.

(** A runtime to run the entry points on: the heap has room or not, the
    luma conversion returns one sample, and the hashing returns [result]. *)
Definition fixed_runtime (room : bool) (result : option (list Z * Z))
    : Runtime :=
  {| float := unit;
     heap_has_room := fun _ => room;
     fillFloatLumaFromRGB := fun _ _ _ _ _ _ _ => Some [tt];
     fillFloatLumaFromGrey := fun _ _ _ _ _ => Some [tt];
     pdqHash256FromFloatLuma := fun _ _ _ => result |}.

(** ** Notions the properties are stated with *)

(** C's [strlen]: the number of characters in front of the first NUL.
    Memory that ends without a NUL reads as NUL from there on. *)
Fixpoint strlen (s : list ascii) : nat :=
  match s with
  | [] => O
  | c :: s' => if Ascii.eqb c zero then O else S (strlen s')
  end.

(** The 22 hex digits. *)
Definition is_hex_digit (c : ascii) : bool :=
  existsb (Ascii.eqb c) (list_ascii_of_string "0123456789abcdefABCDEF").

(** The lowercase hex digit of a value in [0, 16). *)
Definition lower_hex_digit (d : Z) : ascii :=
  if d <? 10 then ascii_of_N (Z.to_N (48 + d))
  else ascii_of_N (Z.to_N (97 + (d - 10))).

Definition is_byte (b : Z) : Prop := 0 <= b < 256.
Definition is_word16 (w : Z) : Prop := 0 <= w < 65536.

(** A 32-byte hash in caller memory. *)
Definition is_hash (h : list Z) : Prop :=
  length h = 32%nat /\ Forall is_byte h.

(** Both characters of pair [k] of a text are hex digits. *)
Definition pair_ok (s : list ascii) (k : nat) : bool :=
  is_hex_digit (read_char s (k * 2)) && is_hex_digit (read_char s (k * 2 + 1)).

(** The byte that pair [k] of a text denotes. *)
Definition pair_byte (s : list ascii) (k : nat) : Z :=
  16 * hex_value (read_char s (k * 2)) + hex_value (read_char s (k * 2 + 1)).

(** The 32 bytes that a text of 64 hex digits denotes. *)
Definition hex_decode (s : list ascii) : list Z :=
  map (pair_byte s) (seq 0 32).

(** The number of positions [j < 8] at which two bytes differ. *)
Definition byte_differences (a b : Z) : Z :=
  for_range 8 0
    (fun j n => n + Z.b2z (xorb (Z.testbit a (Z.of_nat j))
                                (Z.testbit b (Z.of_nat j)))) 0.

(** The number of bit positions, out of the 256 of two 32-byte hashes, at
    which they differ. *)
Definition bit_differences (h1 h2 : list Z) : Z :=
  for_range 32 0
    (fun i n => n + byte_differences (read h1 i) (read h2 i)) 0.

(** What a [try] block does to the caller's memory, by the outcome of its
    allocations and library calls. *)
Definition try_result (r : option (list Z * Z)) (s : outputs)
    : outcome Z * outputs :=
  match r with
  | Some hq =>
      (Returned 0, {| out_hash := store_hash (fst hq) (out_hash s);
                      out_quality := snd hq |})
  | None => (Thrown, s)
  end.

(** The error signalling of a hashing entry point: which return value
    stands for which class of outcome. [computation] is what the
    allocations and library calls come to on the given buffer. *)
Definition signals (rc : Z) (buffer : option (list Z)) (width height : Z)
    (hashOut : option (list Z)) (qualityOut : option Z)
    (computation : list Z -> option (list Z * Z)) : Prop :=
  (rc = -1 <-> buffer = None \/ hashOut = None \/ qualityOut = None) /\
  (rc = -2 <->
     is_Some buffer /\ is_Some hashOut /\ is_Some qualityOut /\
     (width <= 0 \/ height <= 0)) /\
  (rc = -3 <->
     exists buf, buffer = Some buf /\ is_Some hashOut /\ is_Some qualityOut /\
       0 < width /\ 0 < height /\ computation buf = None) /\
  (rc = 0 <->
     exists buf, buffer = Some buf /\ is_Some hashOut /\ is_Some qualityOut /\
       0 < width /\ 0 < height /\ is_Some (computation buf)).

(** C's [tolower] on the ASCII letters. *)
Definition to_lower (c : ascii) : ascii :=
  let n := N_of_ascii c in
  if ((65 <=? n) && (n <=? 90))%N then ascii_of_N (n + 32) else c.

(** The text of a 32-byte hash: two lowercase hex digits per byte, in byte
    order, and the terminator. *)
Definition hex_text (h : list Z) : list ascii :=
  flat_map (fun i => [lower_hex_digit (read h i / 16);
                      lower_hex_digit (read h i mod 16)]) (seq 0 32)
  ++ [zero].

(** The 32 bytes of 16 words, each word high byte first. *)
Definition word_bytes (w : list Z) : list Z :=
  flat_map (fun i => [read w i / 256 mod 256; read w i mod 256]) (seq 0 16).

(** * Properties *)

Example hex_to_hash_mixed_case :
  pdq_hex_to_hash
    (Some (cstring
      "000102030405060708090a0b0c0d0e0fF0E1d2C3b4A5968778695a4B3c2D1e0f"))
    (Some (replicate 32 7))
  = (0, Some [0; 1; 2; 3; 4; 5; 6; 7; 8; 9; 10; 11; 12; 13; 14; 15;
              240; 225; 210; 195; 180; 165; 150; 135; 120; 105; 90; 75;
              60; 45; 30; 15]).
Proof. reflexivity. Qed.

Example hash_to_hex_lowercase :
  pdq_hash_to_hex (Some (replicate 31 171 ++ [5]))
    (Some (replicate 65 "x"%char))
  = Some (cstring
      "ababababababababababababababababababababababababababababababab05").
Proof. vm_compute. reflexivity. Qed.

(** ** Loops *)

Lemma for_range_length {A : Type} (body : nat -> list A -> list A) :
  (forall i l, length (body i l) = length l) ->
  forall n start l, length (for_range n start body l) = length l.
Proof.
  intros Hbody n. induction n as [|n IH]; intros start l; simpl.
  - reflexivity.
  - rewrite IH. apply Hbody.
Qed.

Section PairLoop.

(** A loop that stores [hi i] at [2i] and [lo i] at [2i+1]. *)
Context {A : Type} (hi lo : nat -> A) (body : nat -> list A -> list A).
Hypothesis body_eq :
  forall i l, body i l = <[(i * 2 + 1)%nat := lo i]> (<[(i * 2)%nat := hi i]> l).

Lemma pair_body_length i l : length (body i l) = length l.
Proof. rewrite body_eq. now rewrite !length_insert. Qed.

Lemma pair_loop_length n start l :
  length (for_range n start body l) = length l.
Proof. apply for_range_length. intros; apply pair_body_length. Qed.

Lemma pair_loop_outside n : forall start l j,
  (j < start * 2 \/ (start + n) * 2 <= j)%nat ->
  for_range n start body l !! j = l !! j.
Proof.
  induction n as [|n IH]; intros start l j Hj; simpl.
  - reflexivity.
  - rewrite IH by lia. rewrite body_eq.
    rewrite !list_lookup_insert_ne by lia. reflexivity.
Qed.

Lemma pair_loop_inside n : forall start l k,
  ((start + n) * 2 <= length l)%nat ->
  (start <= k < start + n)%nat ->
  for_range n start body l !! (k * 2)%nat = Some (hi k) /\
  for_range n start body l !! (k * 2 + 1)%nat = Some (lo k).
Proof.
  induction n as [|n IH]; intros start l k Hlen Hk; simpl.
  - lia.
  - destruct (decide (k = start)) as [->|Hne].
    + rewrite !pair_loop_outside by lia. rewrite body_eq. split.
      * rewrite list_lookup_insert_ne by lia.
        apply list_lookup_insert_eq. lia.
      * apply list_lookup_insert_eq. rewrite length_insert. lia.
    + apply IH; [rewrite pair_body_length|]; lia.
Qed.

End PairLoop.

(** ** Characters and nibbles *)

(** A property of a small range of integers, checked by running it. *)
Lemma range_forallb (f : Z -> bool) (n : nat) :
  forallb f (map Z.of_nat (seq 0 n)) = true ->
  forall z, 0 <= z < Z.of_nat n -> f z = true.
Proof.
  intros Hall z Hz. rewrite forallb_forall in Hall. apply Hall.
  apply in_map_iff. exists (Z.to_nat z). split; [lia|].
  apply in_seq. lia.
Qed.

Lemma hex_value_neg (c : ascii) :
  (hex_value c <? 0) = negb (is_hex_digit c).
Proof.
  destruct c as [[] [] [] [] [] [] [] []]; vm_compute; reflexivity.
Qed.

Lemma hex_value_digit (c : ascii) :
  is_hex_digit c = true -> 0 <= hex_value c < 16.
Proof.
  destruct c as [[] [] [] [] [] [] [] []]; vm_compute;
    intuition congruence.
Qed.

Lemma hex_value_range (c : ascii) : -1 <= hex_value c < 16.
Proof.
  destruct c as [[] [] [] [] [] [] [] []]; vm_compute;
    intuition congruence.
Qed.

Lemma zero_not_hex_digit : is_hex_digit zero = false.
Proof. reflexivity. Qed.

Lemma hexChars_lower (d : Z) :
  0 <= d < 16 -> read_char hexChars (Z.to_nat d) = lower_hex_digit d.
Proof.
  intros Hd.
  pose (f := fun d => if ascii_dec (read_char hexChars (Z.to_nat d))
                                   (lower_hex_digit d) then true else false).
  assert (Hf : f d = true) by (apply (range_forallb f 16); [reflexivity|lia]).
  unfold f in Hf. now destruct (ascii_dec _ _).
Qed.

Lemma hex_value_lower (d : Z) :
  0 <= d < 16 -> hex_value (lower_hex_digit d) = d.
Proof.
  intros Hd.
  apply Z.eqb_eq.
  apply (range_forallb (fun d => hex_value (lower_hex_digit d) =? d) 16);
    [reflexivity|lia].
Qed.

Lemma lower_hex_digit_is_hex (d : Z) :
  0 <= d < 16 -> is_hex_digit (lower_hex_digit d) = true.
Proof.
  intros Hd.
  apply (range_forallb (fun d => is_hex_digit (lower_hex_digit d)) 16);
    [reflexivity|lia].
Qed.

Lemma high_nibble (b : Z) : is_byte b -> Z.land (Z.shiftr b 4) 15 = b / 16.
Proof.
  intros Hb. apply Z.eqb_eq.
  apply (range_forallb (fun b => Z.land (Z.shiftr b 4) 15 =? b / 16) 256);
    [reflexivity|exact Hb].
Qed.

Lemma low_nibble (b : Z) : is_byte b -> Z.land b 15 = b mod 16.
Proof.
  intros Hb. apply Z.eqb_eq.
  apply (range_forallb (fun b => Z.land b 15 =? b mod 16) 256);
    [reflexivity|exact Hb].
Qed.

(** Line 267: the two digit values joined into one byte. *)
Lemma join_nibbles (h l : Z) :
  0 <= h < 16 -> 0 <= l < 16 ->
  Z.lor (Z.shiftl h 4) l mod 256 = 16 * h + l.
Proof.
  intros Hh Hl. apply Z.eqb_eq.
  pose (f := fun h => forallb (fun l => Z.lor (Z.shiftl h 4) l mod 256
                                        =? 16 * h + l)
                        (map Z.of_nat (seq 0 16))).
  assert (Hf : f h = true) by (apply (range_forallb f 16); [reflexivity|lia]).
  apply (range_forallb _ 16 Hf). lia.
Qed.

Lemma nibbles_of_byte (b : Z) :
  is_byte b -> 0 <= b / 16 < 16 /\ 0 <= b mod 16 < 16 /\
  16 * (b / 16) + b mod 16 = b.
Proof.
  unfold is_byte. intros Hb. repeat split.
  - apply Z.div_pos; lia.
  - apply Z.div_lt_upper_bound; lia.
  - apply Z.mod_pos_bound; lia.
  - apply Z.mod_pos_bound; lia.
  - symmetry. apply Z.div_mod. lia.
Qed.

(** ** The loop of pdq_hex_to_hash *)

(** One iteration, in terms of [pair_ok] and [pair_byte]. *)
Lemma hex_to_hash_loop_step n i s out :
  hex_to_hash_loop (S n) i s out =
  if pair_ok s i
  then hex_to_hash_loop n (S i) s (<[i := pair_byte s i]> out)
  else (-1, out).
Proof.
  simpl. unfold pair_ok, pair_byte. rewrite !hex_value_neg.
  destruct (is_hex_digit (read_char s (i * 2))) eqn:Hh;
    destruct (is_hex_digit (read_char s (i * 2 + 1))) eqn:Hl; simpl;
    try reflexivity.
  rewrite join_nibbles by now apply hex_value_digit. reflexivity.
Qed.

Lemma hex_to_hash_loop_length n : forall i s out,
  length (snd (hex_to_hash_loop n i s out)) = length out.
Proof.
  induction n as [|n IH]; intros i s out.
  - reflexivity.
  - rewrite hex_to_hash_loop_step. destruct (pair_ok s i).
    + rewrite IH. apply length_insert.
    + reflexivity.
Qed.

Lemma hex_to_hash_loop_rc n : forall i s out,
  fst (hex_to_hash_loop n i s out) = 0 \/
  fst (hex_to_hash_loop n i s out) = -1.
Proof.
  induction n as [|n IH]; intros i s out.
  - now left.
  - rewrite hex_to_hash_loop_step. destruct (pair_ok s i).
    + apply IH.
    + now right.
Qed.

(** The bytes in front of the loop's range and behind it stay. *)
Lemma hex_to_hash_loop_outside n : forall i s out j,
  (j < i \/ i + n <= j)%nat ->
  snd (hex_to_hash_loop n i s out) !! j = out !! j.
Proof.
  induction n as [|n IH]; intros i s out j Hj.
  - reflexivity.
  - rewrite hex_to_hash_loop_step. destruct (pair_ok s i).
    + rewrite IH by lia. apply list_lookup_insert_ne. lia.
    + reflexivity.
Qed.

(** Success: every pair of the range is valid and every byte is stored. *)
Lemma hex_to_hash_loop_ok n : forall i s out,
  fst (hex_to_hash_loop n i s out) = 0 <->
  (forall k, (i <= k < i + n)%nat -> pair_ok s k = true).
Proof.
  induction n as [|n IH]; intros i s out.
  - simpl. split; [intros _ k Hk; lia|reflexivity].
  - rewrite hex_to_hash_loop_step. destruct (pair_ok s i) eqn:Hi.
    + rewrite IH. split; intros H k Hk.
      * destruct (decide (k = i)) as [->|Hne]; [exact Hi|apply H; lia].
      * apply H. lia.
    + simpl. split; [discriminate|].
      intros H. rewrite H in Hi by lia. discriminate.
Qed.

Lemma hex_to_hash_loop_stored n : forall i s out k,
  fst (hex_to_hash_loop n i s out) = 0 ->
  (i <= k < i + n)%nat -> (k < length out)%nat ->
  snd (hex_to_hash_loop n i s out) !! k = Some (pair_byte s k).
Proof.
  induction n as [|n IH]; intros i s out k Hrc Hk Hlen.
  - lia.
  - rewrite hex_to_hash_loop_step in *. destruct (pair_ok s i).
    + destruct (decide (k = i)) as [->|Hne].
      * rewrite hex_to_hash_loop_outside by lia.
        now apply list_lookup_insert_eq.
      * apply IH; [exact Hrc|lia|]. now rewrite length_insert.
    + discriminate.
Qed.

(** Failure: the loop stops at the first invalid pair [k]; the bytes in
    front of [k] are stored already, the bytes from [k] on are the old ones. *)
Lemma hex_to_hash_loop_failed n : forall i s out,
  fst (hex_to_hash_loop n i s out) <> 0 ->
  exists k, (i <= k < i + n)%nat /\ pair_ok s k = false /\
    (forall j, (i <= j < k)%nat -> pair_ok s j = true) /\
    (forall j, (i <= j < k)%nat -> (j < length out)%nat ->
       snd (hex_to_hash_loop n i s out) !! j = Some (pair_byte s j)) /\
    (forall j, (j < i \/ k <= j)%nat ->
       snd (hex_to_hash_loop n i s out) !! j = out !! j).
Proof.
  induction n as [|n IH]; intros i s out Hrc.
  - now contradict Hrc.
  - rewrite hex_to_hash_loop_step in *. destruct (pair_ok s i) eqn:Hi.
    + destruct (IH _ _ _ Hrc) as (k & Hk & Hbad & Hgood & Hnew & Hold).
      exists k. split; [lia|]. split; [exact Hbad|]. repeat split.
      * intros j Hj. destruct (decide (j = i)) as [->|Hne];
          [exact Hi|apply Hgood; lia].
      * intros j Hj Hlen. destruct (decide (j = i)) as [->|Hne].
        -- rewrite Hold by lia. now apply list_lookup_insert_eq.
        -- apply Hnew; [lia|]. now rewrite length_insert.
      * intros j Hj. rewrite Hold by lia.
        apply list_lookup_insert_ne. lia.
    + exists i. split; [lia|]. split; [exact Hi|]. repeat split.
      * intros j Hj; lia.
      * intros j Hj; lia.
Qed.

(** ** pdq_hex_to_hash *)

Lemma pdq_hex_to_hash_unfold s out :
  pdq_hex_to_hash (Some s) (Some out) =
  (fst (hex_to_hash_loop 32 0 s out),
   Some (snd (hex_to_hash_loop 32 0 s out))).
Proof.
  unfold pdq_hex_to_hash. now destruct (hex_to_hash_loop 32 0 s out).
Qed.

Lemma hex_decode_lookup s j :
  (j < 32)%nat -> hex_decode s !! j = Some (pair_byte s j).
Proof.
  intros Hj. unfold hex_decode.
  change (map (pair_byte s) (seq 0 32)) with (pair_byte s <$> seq 0 32).
  rewrite list_lookup_fmap, lookup_seq_lt by exact Hj. reflexivity.
Qed.

Lemma hex_decode_length s : length (hex_decode s) = 32%nat.
Proof. reflexivity. Qed.

(** A bounded search over a decidable property. *)
Lemma bounded_forall_or_exists (p : nat -> bool) (n : nat) :
  (forall i, (i < n)%nat -> p i = true) \/
  (exists i, (i < n)%nat /\ p i = false).
Proof.
  induction n as [|n [IH|(i & Hi & Hp)]].
  - left. intros i Hi. lia.
  - destruct (p n) eqn:Hn.
    + left. intros i Hi.
      destruct (decide (i = n)) as [->|Hne]; [exact Hn|apply IH; lia].
    + right. exists n. split; [lia|exact Hn].
  - right. exists i. split; [lia|exact Hp].
Qed.

(** All 32 pairs are valid exactly when all 64 characters are hex digits. *)
Lemma pairs_ok_chars s :
  (forall k, (k < 32)%nat -> pair_ok s k = true) <->
  (forall i, (i < 64)%nat -> is_hex_digit (read_char s i) = true).
Proof.
  unfold pair_ok. split.
  - intros H i Hi.
    destruct (Nat.Even_or_Odd i) as [[k ->]|[k ->]].
    + specialize (H k ltac:(lia)). apply andb_true_iff in H.
      rewrite Nat.mul_comm. apply H.
    + specialize (H k ltac:(lia)). apply andb_true_iff in H.
      rewrite (Nat.mul_comm 2 k). apply H.
  - intros H k Hk. apply andb_true_iff. split; apply H; lia.
Qed.

Lemma hex_to_hash_rc_ok s out :
  fst (pdq_hex_to_hash (Some s) (Some out)) = 0 <->
  (forall i, (i < 64)%nat -> is_hex_digit (read_char s i) = true).
Proof.
  rewrite pdq_hex_to_hash_unfold, <- pairs_ok_chars. cbn [fst].
  rewrite hex_to_hash_loop_ok. split; intros H k Hk; apply H; lia.
Qed.

Lemma hex_to_hash_rc s out :
  fst (pdq_hex_to_hash (Some s) (Some out)) = 0 \/
  fst (pdq_hex_to_hash (Some s) (Some out)) = -1.
Proof. rewrite pdq_hex_to_hash_unfold. apply hex_to_hash_loop_rc. Qed.

(** Valid input: the whole hash is stored, whatever the buffer held. *)
Lemma hex_to_hash_success s out :
  length out = 32%nat ->
  (forall i, (i < 64)%nat -> is_hex_digit (read_char s i) = true) ->
  pdq_hex_to_hash (Some s) (Some out) = (0, Some (hex_decode s)).
Proof.
  intros Hlen Hhex.
  assert (Hrc : fst (hex_to_hash_loop 32 0 s out) = 0).
  { apply hex_to_hash_loop_ok. intros k Hk.
    apply pairs_ok_chars; [exact Hhex|lia]. }
  rewrite pdq_hex_to_hash_unfold, Hrc. do 2 f_equal.
  apply list_eq. intros j. destruct (decide (j < 32)%nat) as [Hj|Hj].
  - rewrite hex_decode_lookup by exact Hj.
    apply hex_to_hash_loop_stored; [exact Hrc|lia|lia].
  - rewrite hex_to_hash_loop_outside by lia.
    rewrite !lookup_ge_None_2; [reflexivity| |]; [rewrite hex_decode_length|];
      lia.
Qed.

Lemma strlen_read s : read_char s (strlen s) = zero.
Proof.
  induction s as [|c s IH]; simpl.
  - reflexivity.
  - destruct (Ascii.eqb c zero) eqn:Hc.
    + apply Ascii.eqb_eq in Hc. now subst c.
    + exact IH.
Qed.

(** C1, as the claim states it, fails: the second pair of ["ffzz"] is
    rejected after the first byte of the buffer has been overwritten. *)
Lemma hex_to_hash_error_overwrites :
  pdq_hex_to_hash (Some (cstring "ffzz")) (Some (replicate 32 0))
  = (-1, Some (255 :: replicate 31 0)) /\
  255 :: replicate 31 0 <> replicate 32 0.
Proof. split; [reflexivity|discriminate]. Qed.

(** C1 (amended): when [pdq_hex_to_hash] rejects its input, the output
    buffer is left as it was from the index [k] of the first malformed
    character pair on, and holds the decoded bytes of the valid pairs in
    front of [k]; it is untouched when a pointer is null or the first pair
    is malformed; and a return of 0 comes with the whole hash, from input
    whose 64 characters are all valid. *)
Theorem hex_to_hash_error_keeps_tail (s : list ascii) (out : list Z) :
  length out = 32%nat ->
  (fst (pdq_hex_to_hash (Some s) (Some out)) <> 0 ->
   exists k, (k < 32)%nat /\ pair_ok s k = false /\
     (forall j, (j < k)%nat -> pair_ok s j = true) /\
     pdq_hex_to_hash (Some s) (Some out)
     = (-1, Some (take k (hex_decode s) ++ drop k out)) /\
     (k = 0%nat -> snd (pdq_hex_to_hash (Some s) (Some out)) = Some out)) /\
  (fst (pdq_hex_to_hash (Some s) (Some out)) = 0 ->
   (forall i, (i < 64)%nat -> is_hex_digit (read_char s i) = true) /\
   snd (pdq_hex_to_hash (Some s) (Some out)) = Some (hex_decode s)) /\
  pdq_hex_to_hash None (Some out) = (-1, Some out) /\
  pdq_hex_to_hash (Some s) None = (-1, None).
Proof.
  intros Hlen. split; [|split; [|split; reflexivity]].
  - intros Hrc.
    destruct (hex_to_hash_rc s out) as [H0|Hm1]; [contradiction|].
    rewrite pdq_hex_to_hash_unfold in *. cbn [fst snd] in *.
    destruct (hex_to_hash_loop_failed 32 0 s out Hrc)
      as (k & Hk & Hbad & Hgood & Hnew & Hold).
    assert (Hout : snd (hex_to_hash_loop 32 0 s out)
                   = take k (hex_decode s) ++ drop k out).
    { apply list_eq. intros j.
      assert (Htk : length (take k (hex_decode s)) = k)
        by (rewrite length_take, hex_decode_length; lia).
      destruct (decide (j < k)%nat) as [Hj|Hj].
      - rewrite lookup_app_l by lia.
        rewrite lookup_take_lt, hex_decode_lookup by lia.
        apply Hnew; lia.
      - rewrite lookup_app_r by lia. rewrite Htk, lookup_drop.
        replace (k + (j - k))%nat with j by lia. apply Hold. lia. }
    exists k. split; [lia|]. split; [exact Hbad|].
    split; [intros j Hj; apply Hgood; lia|].
    split; [now rewrite Hm1, Hout|].
    intros ->. cbn [snd]. now rewrite Hout.
  - intros Hrc. pose proof (proj1 (hex_to_hash_rc_ok s out) Hrc) as Hall.
    split; [exact Hall|].
    now rewrite hex_to_hash_success.
Qed.

Lemma hex_to_hash_error_keeps_tail_witness :
  length (replicate 32 7) = 32%nat /\
  exists k, (k < 32)%nat /\ pair_ok (cstring "0aF1x") k = false /\
    pdq_hex_to_hash (Some (cstring "0aF1x")) (Some (replicate 32 7))
    = (-1, Some (take k (hex_decode (cstring "0aF1x"))
                 ++ drop k (replicate 32 7))).
Proof.
  split; [reflexivity|].
  destruct (hex_to_hash_error_keeps_tail (cstring "0aF1x") (replicate 32 7)
              eq_refl) as [Herr _].
  destruct Herr as (k & Hk & Hbad & _ & Heq & _); [vm_compute; discriminate|].
  exists k. auto.
Defined.

(** C2, as the claim states it, fails: a text of 65 hex digits does not
    have length 64 and is accepted all the same. *)
Lemma hex_to_hash_accepts_longer_text :
  strlen (cstring (String "0" (String "0"
    "000102030405060708090a0b0c0d0e0f101112131415161718191a1b1c1d1e1"))) = 65%nat /\
  fst (pdq_hex_to_hash
    (Some (cstring (String "0" (String "0"
      "000102030405060708090a0b0c0d0e0f101112131415161718191a1b1c1d1e1"))))
    (Some (replicate 32 0))) = 0.
Proof. split; reflexivity. Qed.

(** C2 (amended): [pdq_hex_to_hash] on non-null pointers returns -1 if and
    only if the text is shorter than 64 characters or one of its first 64
    characters is not a hex digit (of either case), and returns 0
    otherwise; so every text of 64 hex digits is accepted, and so is a
    longer text that starts with 64 hex digits. *)
Theorem hex_to_hash_rejects_iff (s : list ascii) (out : list Z) :
  (fst (pdq_hex_to_hash (Some s) (Some out)) = -1 <->
   (strlen s < 64)%nat \/
   exists i, (i < 64)%nat /\ (i < strlen s)%nat /\
             is_hex_digit (read_char s i) = false) /\
  (fst (pdq_hex_to_hash (Some s) (Some out)) = 0 <->
   (64 <= strlen s)%nat /\
   forall i, (i < 64)%nat -> is_hex_digit (read_char s i) = true).
Proof.
  pose proof (hex_to_hash_rc_ok s out) as Hok.
  pose proof (hex_to_hash_rc s out) as Hrc.
  assert (Hshort : (strlen s < 64)%nat ->
            ~ (forall i, (i < 64)%nat -> is_hex_digit (read_char s i) = true)).
  { intros Hlt Hall. specialize (Hall (strlen s) Hlt).
    rewrite strlen_read in Hall. discriminate. }
  split; split.
  - intros Hm1.
    destruct (bounded_forall_or_exists
                (fun i => is_hex_digit (read_char s i)) 64)
      as [Hall|(i & Hi & Hbad)].
    + apply Hok in Hall. lia.
    + destruct (decide (i < strlen s)%nat); [right; eauto|left; lia].
  - intros H. destruct Hrc as [H0|Hm1]; [|exact Hm1].
    pose proof (proj1 Hok H0) as Hall.
    destruct H as [Hlt|(i & Hi & _ & Hbad)].
    + now apply Hshort in Hlt.
    + rewrite Hall in Hbad by exact Hi. discriminate.
  - intros H0. pose proof (proj1 Hok H0) as Hall. split; [|exact Hall].
    destruct (decide (64 <= strlen s)%nat); [assumption|].
    exfalso. apply Hshort; [lia|exact Hall].
  - intros [_ Hall]. now apply Hok.
Qed.

(** C10: on a text that starts with 64 hex digits [pdq_hex_to_hash]
    returns 0 and stores the 32 bytes that these 64 characters denote,
    whatever follows them and whatever the buffer held. *)
Theorem hex_to_hash_first_64_only (pre rest : list ascii) (out : list Z) :
  length pre = 64%nat ->
  Forall (fun c => is_hex_digit c = true) pre ->
  length out = 32%nat ->
  pdq_hex_to_hash (Some (pre ++ rest)) (Some out)
  = (0, Some (hex_decode pre)).
Proof.
  intros Hpre Hhex Hout.
  assert (Hread : forall i, (i < 64)%nat ->
            read_char (pre ++ rest) i = read_char pre i).
  { intros i Hi. unfold read_char. now rewrite lookup_app_l by lia. }
  rewrite hex_to_hash_success; [|exact Hout|].
  - do 2 f_equal. unfold hex_decode. apply map_ext_in.
    intros k Hk. apply in_seq in Hk. unfold pair_byte.
    rewrite !Hread by lia. reflexivity.
  - intros i Hi. rewrite Hread by exact Hi. unfold read_char.
    destruct (lookup_lt_is_Some_2 pre i ltac:(lia)) as [c Hc].
    rewrite Hc. exact (Forall_lookup_1 _ _ _ _ Hhex Hc).
Qed.

Lemma hex_to_hash_first_64_only_witness :
  pdq_hex_to_hash
    (Some (list_ascii_of_string
             "00112233445566778899aabbccddeeffFFEEDDCCBBAA99887766554433221100"
           ++ list_ascii_of_string "-not hex, and no terminator"))
    (Some (replicate 32 9))
  = (0, Some (hex_decode (list_ascii_of_string
             "00112233445566778899aabbccddeeffFFEEDDCCBBAA99887766554433221100"))).
Proof.
  apply hex_to_hash_first_64_only.
  - reflexivity.
  - repeat constructor.
  - reflexivity.
Defined.

(** ** pdq_hash_to_hex and the byte layout *)

Lemma read_lookup (buf : list Z) (i : nat) :
  (i < length buf)%nat -> buf !! i = Some (read buf i).
Proof.
  intros Hi. unfold read.
  destruct (lookup_lt_is_Some_2 buf i Hi) as [x ->]. reflexivity.
Qed.

Lemma read_is_byte (buf : list Z) (i : nat) :
  Forall is_byte buf -> is_byte (read buf i).
Proof.
  intros Hall. unfold read. destruct (buf !! i) as [x|] eqn:Hx.
  - exact (Forall_lookup_1 _ _ _ _ Hall Hx).
  - unfold is_byte. simpl. lia.
Qed.

Lemma read_is_word16 (w : list Z) (i : nat) :
  Forall is_word16 w -> is_word16 (read w i).
Proof.
  intros Hall. unfold read. destruct (w !! i) as [x|] eqn:Hx.
  - exact (Forall_lookup_1 _ _ _ _ Hall Hx).
  - unfold is_word16. simpl. lia.
Qed.

(** Lines 90 and 91 on a 16-bit word: its high and its low byte. *)
Lemma high_byte (w : Z) : is_word16 w -> Z.land (Z.shiftr w 8) 255 = w / 256.
Proof.
  unfold is_word16. intros Hw.
  change 255 with (Z.ones 8). rewrite Z.land_ones by lia.
  rewrite Z.shiftr_div_pow2 by lia. change (2 ^ 8) with 256.
  apply Z.mod_small. split.
  - apply Z.div_pos; lia.
  - apply Z.div_lt_upper_bound; lia.
Qed.

Lemma low_byte (w : Z) : Z.land w 255 = w mod 256.
Proof. change 255 with (Z.ones 8). now rewrite Z.land_ones by lia. Qed.

(** The bytes that [store_hash] leaves in a 32-byte buffer. *)
Lemma store_hash_bytes (w out : list Z) (i : nat) :
  Forall is_word16 w -> length out = 32%nat -> (i < 16)%nat ->
  store_hash w out !! (i * 2)%nat = Some (read w i / 256) /\
  store_hash w out !! (i * 2 + 1)%nat = Some (read w i mod 256).
Proof.
  intros Hw Hout Hi. unfold store_hash.
  rewrite <- high_byte by now apply read_is_word16.
  rewrite <- low_byte.
  apply (pair_loop_inside
           (fun i => Z.land (Z.shiftr (read w i) 8) 255)
           (fun i => Z.land (read w i) 255)); [reflexivity|lia|lia].
Qed.

Lemma store_hash_length (w out : list Z) :
  length (store_hash w out) = length out.
Proof.
  apply (pair_loop_length
           (fun i => Z.land (Z.shiftr (read w i) 8) 255)
           (fun i => Z.land (read w i) 255)). reflexivity.
Qed.

(** What [pdq_hash_to_hex] leaves in a buffer of at least 65 characters. *)
Lemma hash_to_hex_chars (h : list Z) (hexbuf : list ascii) :
  Forall is_byte h -> (65 <= length hexbuf)%nat ->
  exists hex,
    pdq_hash_to_hex (Some h) (Some hexbuf) = Some hex /\
    length hex = length hexbuf /\
    (forall i, (i < 32)%nat ->
       hex !! (i * 2)%nat = Some (lower_hex_digit (read h i / 16)) /\
       hex !! (i * 2 + 1)%nat = Some (lower_hex_digit (read h i mod 16))) /\
    hex !! 64%nat = Some zero /\
    (forall j, (64 < j)%nat -> hex !! j = hexbuf !! j).
Proof.
  intros Hh Hlen.
  set (hi := fun i => read_char hexChars
                        (Z.to_nat (Z.land (Z.shiftr (read h i) 4) 15))).
  set (lo := fun i => read_char hexChars (Z.to_nat (Z.land (read h i) 15))).
  assert (Hbody : forall i l, hash_to_hex_body h i l
            = <[(i * 2 + 1)%nat := lo i]> (<[(i * 2)%nat := hi i]> l))
    by reflexivity.
  pose proof (pair_loop_length hi lo _ Hbody 32 0 hexbuf) as Hl.
  eexists. split; [reflexivity|]. split; [|split; [|split]].
  - now rewrite length_insert.
  - intros i Hi.
    destruct (pair_loop_inside hi lo _ Hbody 32 0 hexbuf i) as [H1 H2];
      [lia|lia|].
    pose proof (nibbles_of_byte _ (read_is_byte h i Hh)) as (Hd & Hm & _).
    rewrite !list_lookup_insert_ne by lia. rewrite H1, H2.
    unfold hi, lo.
    rewrite high_nibble, low_nibble by now apply read_is_byte.
    rewrite (hexChars_lower _ Hd), (hexChars_lower _ Hm). split; reflexivity.
  - apply list_lookup_insert_eq. lia.
  - intros j Hj. rewrite list_lookup_insert_ne by lia.
    apply (pair_loop_outside hi lo _ Hbody). lia.
Qed.

Lemma lower_hex_digit_not_zero (d : Z) :
  0 <= d < 16 -> lower_hex_digit d <> zero.
Proof.
  intros Hd Hz. pose proof (lower_hex_digit_is_hex d Hd) as Hhex.
  rewrite Hz in Hhex. discriminate.
Qed.

Lemma strlen_exact (n : nat) : forall s : list ascii,
  (forall j, (j < n)%nat -> exists c, s !! j = Some c /\ c <> zero) ->
  s !! n = Some zero -> strlen s = n.
Proof.
  induction n as [|n IH]; intros s Hpre Hn.
  - destruct s as [|c s]; [discriminate|]. simpl in *.
    injection Hn as ->. reflexivity.
  - destruct s as [|c s]; [discriminate|].
    destruct (Hpre 0%nat ltac:(lia)) as (c' & Hc' & Hnz).
    simpl in Hc'. injection Hc' as <-. simpl.
    destruct (Ascii.eqb c zero) eqn:Hc.
    + apply Ascii.eqb_eq in Hc. contradiction.
    + f_equal. apply IH; [|exact Hn].
      intros j Hj. apply (Hpre (S j)). lia.
Qed.

(** Every character in front of index 64 of the text is a lowercase hex
    digit, whichever half of a pair it is. *)
Lemma hash_to_hex_char (h : list Z) (hex : list ascii) :
  Forall is_byte h ->
  (forall i, (i < 32)%nat ->
     hex !! (i * 2)%nat = Some (lower_hex_digit (read h i / 16)) /\
     hex !! (i * 2 + 1)%nat = Some (lower_hex_digit (read h i mod 16))) ->
  forall j, (j < 64)%nat ->
    exists d, 0 <= d < 16 /\ hex !! j = Some (lower_hex_digit d).
Proof.
  intros Hh Hhex j Hj.
  destruct (Nat.Even_or_Odd j) as [[k ->]|[k ->]];
    destruct (Hhex k ltac:(lia)) as [H1 H2];
    pose proof (nibbles_of_byte _ (read_is_byte h k Hh)) as (Hd & Hm & _).
  - exists (read h k / 16). rewrite Nat.mul_comm. auto.
  - exists (read h k mod 16). rewrite (Nat.mul_comm 2 k). auto.
Qed.

(** C3: the serialization format. [store_hash] (lines 89-92) puts the high
    byte of word [i] at byte [2i] and its low byte at [2i+1], for every
    [i] in 0..15; [pdq_hash_to_hex] renders byte [i] as two lowercase hex
    digits, high nibble at character [2i] and low nibble at [2i+1], in
    byte order, followed by a NUL at index 64: a text of 64 characters. *)
Theorem serialization_format (w out h : list Z) (hexbuf : list ascii) :
  length w = 16%nat -> Forall is_word16 w -> length out = 32%nat ->
  is_hash h -> (65 <= length hexbuf)%nat ->
  (forall i, (i < 16)%nat ->
     store_hash w out !! (i * 2)%nat = Some (read w i / 256) /\
     store_hash w out !! (i * 2 + 1)%nat = Some (read w i mod 256) /\
     read w i = 256 * read (store_hash w out) (i * 2)
                + read (store_hash w out) (i * 2 + 1)) /\
  exists hex,
    pdq_hash_to_hex (Some h) (Some hexbuf) = Some hex /\
    (forall i, (i < 32)%nat ->
       hex !! (i * 2)%nat = Some (lower_hex_digit (read h i / 16)) /\
       hex !! (i * 2 + 1)%nat = Some (lower_hex_digit (read h i mod 16))) /\
    hex !! 64%nat = Some zero /\
    strlen hex = 64%nat.
Proof.
  intros Hwlen Hw Hout [Hhlen Hh] Hbuf. split.
  - intros i Hi.
    destruct (store_hash_bytes w out i Hw Hout Hi) as [H1 H2].
    split; [exact H1|]. split; [exact H2|].
    unfold read at 2 3. rewrite H1, H2. simpl.
    pose proof (read_is_word16 w i Hw) as Hr. unfold is_word16 in Hr.
    apply Z.div_mod. lia.
  - destruct (hash_to_hex_chars h hexbuf Hh Hbuf)
      as (hex & Heq & Hlen & Hchars & Hnul & _).
    exists hex. split; [exact Heq|]. split; [exact Hchars|].
    split; [exact Hnul|].
    apply strlen_exact; [|exact Hnul].
    intros j Hj.
    destruct (hash_to_hex_char h hex Hh Hchars j Hj) as (d & Hd & Hc).
    exists (lower_hex_digit d). split; [exact Hc|].
    now apply lower_hex_digit_not_zero.
Qed.

(** C4: the round trip. The text that [pdq_hash_to_hex] writes for a
    32-byte hash is accepted by [pdq_hex_to_hash], which stores the very
    same 32 bytes. *)
Theorem hex_round_trip (h out : list Z) (hexbuf : list ascii) :
  is_hash h -> (65 <= length hexbuf)%nat -> length out = 32%nat ->
  exists hex,
    pdq_hash_to_hex (Some h) (Some hexbuf) = Some hex /\
    pdq_hex_to_hash (Some hex) (Some out) = (0, Some h).
Proof.
  intros [Hhlen Hh] Hbuf Hout.
  destruct (hash_to_hex_chars h hexbuf Hh Hbuf)
    as (hex & Heq & Hlen & Hchars & Hnul & _).
  exists hex. split; [exact Heq|].
  rewrite hex_to_hash_success; [|exact Hout|].
  - do 2 f_equal. apply list_eq. intros j.
    destruct (decide (j < 32)%nat) as [Hj|Hj].
    + rewrite hex_decode_lookup, read_lookup by lia. f_equal.
      destruct (Hchars j Hj) as [H1 H2].
      pose proof (nibbles_of_byte _ (read_is_byte h j Hh)) as (Hd & Hm & Hb).
      unfold pair_byte, read_char. rewrite H1, H2. simpl.
      now rewrite !hex_value_lower.
    + rewrite !lookup_ge_None_2; [reflexivity| |];
        [|rewrite hex_decode_length]; lia.
  - intros i Hi.
    destruct (hash_to_hex_char h hex Hh Hchars i Hi) as (d & Hd & Hc).
    unfold read_char. rewrite Hc. simpl.
    now apply lower_hex_digit_is_hex.
Qed.

Lemma serialization_format_witness :
  exists hex,
    pdq_hash_to_hex (Some (replicate 32 171)) (Some (replicate 65 "?"%char))
    = Some hex /\
    hex !! 64%nat = Some zero /\ strlen hex = 64%nat.
Proof.
  destruct (serialization_format (replicate 16 4660) (replicate 32 0)
              (replicate 32 171) (replicate 65 "?"%char))
    as [_ (hex & Heq & _ & Hnul & Hlen)].
  - reflexivity.
  - repeat constructor; unfold is_word16; lia.
  - reflexivity.
  - split; [reflexivity|]. repeat constructor; unfold is_byte; lia.
  - simpl. lia.
  - exists hex. auto.
Defined.

Lemma hex_round_trip_witness :
  exists hex,
    pdq_hash_to_hex (Some (replicate 32 90)) (Some (replicate 65 "?"%char))
    = Some hex /\
    pdq_hex_to_hash (Some hex) (Some (replicate 32 0))
    = (0, Some (replicate 32 90)).
Proof.
  apply hex_round_trip.
  - split; [reflexivity|]. repeat constructor; unfold is_byte; lia.
  - simpl. lia.
  - reflexivity.
Defined.

(** ** Loops that add up *)

Section SumLoop.

Implicit Types f g h : nat -> Z.

Lemma for_range_app {St : Type} (body : nat -> St -> St) n m :
  forall start s,
  for_range (n + m) start body s
  = for_range m (start + n) body (for_range n start body s).
Proof.
  induction n as [|n IH]; intros start s; simpl.
  - now rewrite Nat.add_0_r.
  - rewrite IH. now rewrite Nat.add_succ_r.
Qed.

Lemma sum_loop_acc f n : forall start a,
  for_range n start (fun i acc => acc + f i) a
  = a + for_range n start (fun i acc => acc + f i) 0.
Proof.
  induction n as [|n IH]; intros start a; simpl.
  - lia.
  - rewrite IH, (IH _ (0 + f start)). lia.
Qed.

Lemma sum_loop_ext f g n : forall start,
  (forall i, (start <= i < start + n)%nat -> f i = g i) ->
  for_range n start (fun i acc => acc + f i) 0
  = for_range n start (fun i acc => acc + g i) 0.
Proof.
  induction n as [|n IH]; intros start Hfg; simpl.
  - reflexivity.
  - rewrite sum_loop_acc, (sum_loop_acc g).
    rewrite Hfg by lia. rewrite IH; [reflexivity|].
    intros i Hi. apply Hfg. lia.
Qed.

(** The shape of a triangle inequality, term by term. *)
Lemma sum_loop_le_add f g h n : forall start,
  (forall i, (start <= i < start + n)%nat -> f i <= g i + h i) ->
  for_range n start (fun i acc => acc + f i) 0
  <= for_range n start (fun i acc => acc + g i) 0
     + for_range n start (fun i acc => acc + h i) 0.
Proof.
  induction n as [|n IH]; intros start Hle; simpl.
  - lia.
  - rewrite sum_loop_acc, (sum_loop_acc g), (sum_loop_acc h).
    specialize (Hle start ltac:(lia)) as Hs.
    specialize (IH (S start) ltac:(intros i Hi; apply Hle; lia)). lia.
Qed.

Lemma sum_loop_bounds f c n : forall start,
  (forall i, (start <= i < start + n)%nat -> 0 <= f i <= c) ->
  0 <= for_range n start (fun i acc => acc + f i) 0 <= c * Z.of_nat n.
Proof.
  induction n as [|n IH]; intros start Hb; simpl for_range.
  - lia.
  - rewrite sum_loop_acc.
    specialize (Hb start ltac:(lia)) as Hs.
    specialize (IH (S start) ltac:(intros i Hi; apply Hb; lia)). lia.
Qed.

Lemma sum_loop_shift f k n : forall start,
  for_range n (start + k) (fun i acc => acc + f i) 0
  = for_range n start (fun i acc => acc + f (i + k)%nat) 0.
Proof.
  induction n as [|n IH]; intros start; simpl.
  - reflexivity.
  - rewrite sum_loop_acc, (sum_loop_acc (fun i => f (i + k)%nat)).
    now rewrite <- IH.
Qed.

(** Adding two entries per round is adding all entries. *)
Lemma sum_loop_pairs f n : forall start,
  for_range n start
    (fun i acc => acc + (f (i * 2)%nat + f (i * 2 + 1)%nat)) 0
  = for_range (n * 2) (start * 2) (fun i acc => acc + f i) 0.
Proof.
  induction n as [|n IH]; intros start; simpl.
  - reflexivity.
  - rewrite sum_loop_acc, (sum_loop_acc f). rewrite IH.
    replace (start * 2 + 1)%nat with (S (start * 2)) by lia.
    simpl. lia.
Qed.

End SumLoop.

(** ** pdq_hamming_distance *)

Lemma byte_high_bits (b j : Z) : is_byte b -> 8 <= j -> Z.testbit b j = false.
Proof.
  unfold is_byte. intros Hb Hj.
  rewrite <- (Z.mod_small b (2 ^ 8)) by (change (2 ^ 8) with 256; lia).
  apply Z.mod_pow2_bits_high. lia.
Qed.

(** The bits of a word loaded from two bytes: bits 0..7 are those of the
    second byte, bits 8..15 those of the first. *)
Lemma word_of_bytes_low_bits (hi lo j : Z) :
  0 <= j < 8 -> Z.testbit (word_of_bytes hi lo) j = Z.testbit lo j.
Proof.
  intros Hj. unfold word_of_bytes. change 65536 with (2 ^ 16).
  rewrite Z.mod_pow2_bits_low by lia.
  rewrite Z.lor_spec, Z.shiftl_spec by lia.
  rewrite Z.testbit_neg_r by lia. reflexivity.
Qed.

Lemma word_of_bytes_high_bits (hi lo j : Z) :
  is_byte hi -> is_byte lo -> 8 <= j < 16 ->
  Z.testbit (word_of_bytes hi lo) j = Z.testbit hi (j - 8).
Proof.
  intros Hhi Hlo Hj. unfold word_of_bytes.
  rewrite (Z.mod_small hi) by (unfold is_byte in Hhi; lia).
  change 65536 with (2 ^ 16).
  rewrite Z.mod_pow2_bits_low by lia.
  rewrite Z.lor_spec, Z.shiftl_spec by lia.
  rewrite (byte_high_bits lo j) by (assumption || lia).
  apply orb_false_r.
Qed.

Lemma word_of_bytes_bits_above (hi lo j : Z) :
  16 <= j -> Z.testbit (word_of_bytes hi lo) j = false.
Proof.
  intros Hj. unfold word_of_bytes. change 65536 with (2 ^ 16).
  apply Z.mod_pow2_bits_high. lia.
Qed.

(** The word is the big-endian value of its two bytes. *)
Lemma word_of_bytes_value (hi lo : Z) :
  is_byte hi -> is_byte lo -> word_of_bytes hi lo = 256 * hi + lo.
Proof.
  intros Hhi Hlo. unfold is_byte in *.
  assert (Hsum : 256 * hi + lo = Z.lor (Z.shiftl hi 8) lo).
  { rewrite <- Z.lxor_lor, <- Z.add_nocarry_lxor.
    - rewrite Z.shiftl_mul_pow2 by lia. change (2 ^ 8) with 256. lia.
    - apply Z.bits_inj'. intros k Hk.
      rewrite Z.land_spec, Z.shiftl_spec, Z.bits_0 by lia.
      destruct (Z_lt_le_dec k 8).
      + rewrite Z.testbit_neg_r by lia. reflexivity.
      + rewrite (byte_high_bits lo k) by (unfold is_byte; lia).
        apply andb_false_r.
    - apply Z.bits_inj'. intros k Hk.
      rewrite Z.land_spec, Z.shiftl_spec, Z.bits_0 by lia.
      destruct (Z_lt_le_dec k 8).
      + rewrite Z.testbit_neg_r by lia. reflexivity.
      + rewrite (byte_high_bits lo k) by (unfold is_byte; lia).
        apply andb_false_r. }
  rewrite Hsum. unfold word_of_bytes.
  rewrite (Z.mod_small hi) by lia.
  apply Z.mod_small. rewrite <- Hsum. lia.
Qed.

Lemma load_hash_read (hash : list Z) (i : nat) :
  (i < 16)%nat ->
  read (load_hash hash) i
  = word_of_bytes (read hash (i * 2)) (read hash (i * 2 + 1)).
Proof.
  intros Hi. unfold load_hash.
  assert (Hgen : forall n start l k,
            (start + n <= length l)%nat -> (start <= k < start + n)%nat ->
            for_range n start (load_hash_body hash) l !! k
            = Some (word_of_bytes (read hash (k * 2))
                                  (read hash (k * 2 + 1)))).
  { induction n as [|n IH]; intros start l k Hlen Hk; simpl; [lia|].
    destruct (decide (k = start)) as [->|Hne].
    - assert (Hout : forall m st l' j, (j < st)%nat ->
                for_range m st (load_hash_body hash) l' !! j = l' !! j).
      { induction m as [|m IHm]; intros st l' j Hj; simpl; [reflexivity|].
        rewrite IHm by lia. apply list_lookup_insert_ne. lia. }
      rewrite Hout by lia. apply list_lookup_insert_eq. lia.
    - apply IH; [unfold load_hash_body; rewrite length_insert|]; lia. }
  unfold read at 1. rewrite (Hgen 16%nat 0%nat); [reflexivity| |lia].
  rewrite length_replicate. lia.
Qed.

Lemma b2z_range (b : bool) : 0 <= Z.b2z b <= 1.
Proof. destruct b; simpl; lia. Qed.

Lemma hammingNorm16_range (h : Z) : 0 <= hammingNorm16 h <= 16.
Proof.
  unfold hammingNorm16.
  pose proof (sum_loop_bounds (fun j => Z.b2z (Z.testbit h (Z.of_nat j)))
                1 16 0 ltac:(intros; apply b2z_range)). simpl Z.of_nat in *.
  lia.
Qed.

(** The set bits of the XOR of two loaded words are the positions at
    which the bytes they were loaded from differ. *)
Lemma hammingNorm16_xor_words (a1 b1 a2 b2 : Z) :
  is_byte a1 -> is_byte b1 -> is_byte a2 -> is_byte b2 ->
  hammingNorm16 (Z.lxor (word_of_bytes a1 b1) (word_of_bytes a2 b2))
  = byte_differences a1 a2 + byte_differences b1 b2.
Proof.
  intros Ha1 Hb1 Ha2 Hb2. unfold hammingNorm16, byte_differences.
  change 16%nat with (8 + 8)%nat. rewrite for_range_app.
  rewrite sum_loop_acc.
  rewrite (sum_loop_shift _ 8 8 0). rewrite Z.add_comm. f_equal.
  - apply sum_loop_ext. intros j Hj.
    rewrite Z.lxor_spec, !word_of_bytes_high_bits by (assumption || lia).
    replace (Z.of_nat (j + 8) - 8) with (Z.of_nat j) by lia. reflexivity.
  - apply sum_loop_ext. intros j Hj.
    rewrite Z.lxor_spec, !word_of_bytes_low_bits by lia. reflexivity.
Qed.

Lemma hamming_distance_unfold (h1 h2 : list Z) :
  pdq_hamming_distance (Some h1) (Some h2)
  = for_range 16 0
      (fun i acc => acc +
         hammingNorm16
           (Z.lxor (word_of_bytes (read h1 (i * 2)) (read h1 (i * 2 + 1)))
                   (word_of_bytes (read h2 (i * 2)) (read h2 (i * 2 + 1)))))
      0.
Proof.
  unfold pdq_hamming_distance, Hash256_hammingDistance.
  apply (sum_loop_ext
           (fun i => hammingNorm16 (Z.lxor (read (load_hash h1) i)
                                           (read (load_hash h2) i)))).
  intros i Hi. now rewrite !load_hash_read by lia.
Qed.

(** C7: for two 32-byte hashes [pdq_hamming_distance] is the number of bit
    positions at which they differ; it is the sum over the 16 words
    [256 * h[2i] + h[2i+1]] of the set-bit count of their XOR, and lies in
    [0, 256]. *)
Theorem hamming_distance_counts_bits (h1 h2 : list Z) :
  is_hash h1 -> is_hash h2 ->
  pdq_hamming_distance (Some h1) (Some h2) = bit_differences h1 h2 /\
  pdq_hamming_distance (Some h1) (Some h2)
  = for_range 16 0
      (fun i acc => acc +
         hammingNorm16
           (Z.lxor (256 * read h1 (i * 2) + read h1 (i * 2 + 1))
                   (256 * read h2 (i * 2) + read h2 (i * 2 + 1)))) 0 /\
  0 <= pdq_hamming_distance (Some h1) (Some h2) <= 256.
Proof.
  intros [Hl1 Hb1] [Hl2 Hb2]. rewrite hamming_distance_unfold.
  split; [|split].
  - pose proof (sum_loop_pairs
                  (fun k => byte_differences (read h1 k) (read h2 k)) 16 0)
      as Hpairs.
    etransitivity; [|exact Hpairs].
    apply sum_loop_ext. intros i Hi.
    apply hammingNorm16_xor_words; now apply read_is_byte.
  - apply sum_loop_ext. intros i Hi.
    now rewrite !word_of_bytes_value by now apply read_is_byte.
  - pose proof (sum_loop_bounds
      (fun i => hammingNorm16
         (Z.lxor (word_of_bytes (read h1 (i * 2)) (read h1 (i * 2 + 1)))
                 (word_of_bytes (read h2 (i * 2)) (read h2 (i * 2 + 1)))))
      16 16 0 ltac:(intros; apply hammingNorm16_range)) as H.
    simpl Z.of_nat in H. lia.
Qed.

Lemma hamming_distance_counts_bits_witness :
  pdq_hamming_distance (Some (replicate 32 165)) (Some (replicate 32 90))
  = bit_differences (replicate 32 165) (replicate 32 90) /\
  0 <= pdq_hamming_distance (Some (replicate 32 165)) (Some (replicate 32 90))
    <= 256.
Proof.
  destruct (hamming_distance_counts_bits (replicate 32 165) (replicate 32 90))
    as (Heq & _ & Hrange).
  - split; [reflexivity|]. repeat constructor; unfold is_byte; lia.
  - split; [reflexivity|]. repeat constructor; unfold is_byte; lia.
  - split; assumption.
Defined.

Example hamming_distance_all_bits :
  pdq_hamming_distance (Some (replicate 32 165)) (Some (replicate 32 90)) = 256.
Proof. vm_compute. reflexivity. Qed.

Example hamming_distance_one_bit :
  pdq_hamming_distance (Some (replicate 31 0 ++ [16])) (Some (replicate 32 0))
  = 1.
Proof. vm_compute. reflexivity. Qed.

Example hamming_distance_null :
  pdq_hamming_distance None (Some (replicate 32 0)) = -1.
Proof. reflexivity. Qed.

(** C8: [pdq_hamming_distance] is symmetric. *)
Theorem hamming_distance_symmetric (h1 h2 : list Z) :
  pdq_hamming_distance (Some h1) (Some h2)
  = pdq_hamming_distance (Some h2) (Some h1).
Proof.
  rewrite !hamming_distance_unfold.
  apply sum_loop_ext. intros i _. now rewrite Z.lxor_comm.
Qed.

Lemma hammingNorm16_triangle (a b c : Z) :
  hammingNorm16 (Z.lxor a c)
  <= hammingNorm16 (Z.lxor a b) + hammingNorm16 (Z.lxor b c).
Proof.
  unfold hammingNorm16.
  apply (sum_loop_le_add
           (fun j => Z.b2z (Z.testbit (Z.lxor a c) (Z.of_nat j)))
           (fun j => Z.b2z (Z.testbit (Z.lxor a b) (Z.of_nat j)))
           (fun j => Z.b2z (Z.testbit (Z.lxor b c) (Z.of_nat j)))).
  intros j _. rewrite !Z.lxor_spec.
  destruct (Z.testbit a (Z.of_nat j)), (Z.testbit b (Z.of_nat j)),
    (Z.testbit c (Z.of_nat j)); simpl; lia.
Qed.

(** C9: [pdq_hamming_distance] satisfies the triangle inequality. *)
Theorem hamming_distance_triangle (h1 h2 h3 : list Z) :
  pdq_hamming_distance (Some h1) (Some h3)
  <= pdq_hamming_distance (Some h1) (Some h2)
     + pdq_hamming_distance (Some h2) (Some h3).
Proof.
  rewrite !hamming_distance_unfold.
  apply (sum_loop_le_add
    (fun i => hammingNorm16
       (Z.lxor (word_of_bytes (read h1 (i * 2)) (read h1 (i * 2 + 1)))
               (word_of_bytes (read h3 (i * 2)) (read h3 (i * 2 + 1)))))
    (fun i => hammingNorm16
       (Z.lxor (word_of_bytes (read h1 (i * 2)) (read h1 (i * 2 + 1)))
               (word_of_bytes (read h2 (i * 2)) (read h2 (i * 2 + 1)))))
    (fun i => hammingNorm16
       (Z.lxor (word_of_bytes (read h2 (i * 2)) (read h2 (i * 2 + 1)))
               (word_of_bytes (read h3 (i * 2)) (read h3 (i * 2 + 1)))))).
  intros i _. apply hammingNorm16_triangle.
Qed.

(** ** pdq_hash_from_rgb and pdq_hash_from_gray *)

Section HashingProperties.

Variable rt : Runtime.

(** A throw leaves the [try] block before the first store, and after the
    stores nothing throws. *)
Lemma hash_from_rgb_try_run buf width height s :
  hash_from_rgb_try rt buf width height s
  = try_result (rgb_computation rt buf width height) s.
Proof.
  unfold hash_from_rgb_try, rgb_computation, try_result, allocated.
  unfold bind, new_array.
  destruct ((0 <=? int_mul width height)
            && heap_has_room rt (int_mul width height)); [|reflexivity].
  destruct (split_channels buf (int_mul width height)) as [[r g] b].
  unfold call.
  destruct (fillFloatLumaFromRGB rt r g b height width width 1) as [luma|];
    [|reflexivity].
  destruct (pdqHash256FromFloatLuma rt luma height width) as [hq|];
    reflexivity.
Qed.

Lemma hash_from_gray_try_run buf width height s :
  hash_from_gray_try rt buf width height s
  = try_result (gray_computation rt buf width height) s.
Proof.
  unfold hash_from_gray_try, gray_computation, try_result, allocated.
  unfold bind, new_array.
  destruct ((0 <=? int_mul width height)
            && heap_has_room rt (int_mul width height)); [|reflexivity].
  unfold call.
  destruct (fillFloatLumaFromGrey rt buf height width width 1) as [luma|];
    [|reflexivity].
  destruct (pdqHash256FromFloatLuma rt luma height width) as [hq|];
    reflexivity.
Qed.

(** One step towards a goal of [signals] at a known return value. *)
Local Ltac split_signal :=
  match goal with
  | |- _ /\ _ => split
  | |- _ <-> _ => split; intro
  | H : _ /\ _ |- _ => destruct H
  | H : exists _, _ |- _ => destruct H
  | H : _ \/ _ |- _ => destruct H
  | H : is_Some None |- _ => destruct H; discriminate
  | H : Some _ = Some _ |- _ => injection H as ->
  | H : ?x = None, H' : is_Some ?x |- _ => rewrite H in H'
  | |- is_Some (Some _) => eexists; reflexivity
  | H : ?x = Some _ |- is_Some ?x => rewrite H; eexists; reflexivity
  | |- exists _, Some _ = Some _ /\ _ => eexists; split; [reflexivity|]
  | _ => discriminate
  | _ => lia
  | _ => congruence
  | |- _ \/ _ => (left; reflexivity) || (right; left; reflexivity)
                 || (right; right; reflexivity)
                 || (left; lia) || (right; lia)
  end.

Lemma guarded_run (body : list Z -> M Z)
    (computation : list Z -> option (list Z * Z))
    buffer width height hashOut qualityOut :
  (forall buf s, body buf s = try_result (computation buf) s) ->
  guarded buffer width height hashOut qualityOut body
  = match buffer, hashOut, qualityOut with
    | Some buf, Some h, Some q =>
        if (width <=? 0) || (height <=? 0)
        then (-2, (hashOut, qualityOut))
        else match computation buf with
             | Some hq => (0, (Some (store_hash (fst hq) h), Some (snd hq)))
             | None => (-3, (hashOut, qualityOut))
             end
    | _, _, _ => (-1, (hashOut, qualityOut))
    end.
Proof.
  intros Hbody. unfold guarded, try_catch.
  destruct buffer as [buf|], hashOut as [h|], qualityOut as [q|];
    try reflexivity.
  destruct ((width <=? 0) || (height <=? 0)); [reflexivity|].
  rewrite Hbody. unfold try_result.
  destruct (computation buf) as [hq|]; reflexivity.
Qed.

Lemma guarded_error_leaves_outputs body computation
    buffer width height hashOut qualityOut :
  (forall buf s, body buf s = try_result (computation buf) s) ->
  fst (guarded buffer width height hashOut qualityOut body) <> 0 ->
  snd (guarded buffer width height hashOut qualityOut body)
  = (hashOut, qualityOut).
Proof.
  intros Hbody. rewrite (guarded_run _ _ _ _ _ _ _ Hbody).
  destruct buffer as [buf|], hashOut as [h|], qualityOut as [q|];
    try reflexivity.
  destruct ((width <=? 0) || (height <=? 0)); [reflexivity|].
  destruct (computation buf) as [hq|]; [|reflexivity].
  intros Hrc. now contradict Hrc.
Qed.

Lemma guarded_signals body computation
    buffer width height hashOut qualityOut :
  (forall buf s, body buf s = try_result (computation buf) s) ->
  signals (fst (guarded buffer width height hashOut qualityOut body))
    buffer width height hashOut qualityOut computation.
Proof.
  intros Hbody. rewrite (guarded_run _ _ _ _ _ _ _ Hbody).
  unfold signals.
  destruct buffer as [buf|], hashOut as [h|], qualityOut as [q|];
    cbn [fst]; try (repeat split_signal; fail).
  destruct (Z.leb_spec width 0), (Z.leb_spec height 0); cbn [orb fst];
    try (repeat split_signal; fail).
  destruct (computation buf) as [hq|] eqn:Hc; cbn [fst];
    repeat split_signal.
Qed.

(** C5: when [pdq_hash_pdq_hash_from_rgb rt] or [pdq_hash_pdq_hash_from_gray rt] returns an
    error, the memory behind [hashOut] and [qualityOut] is what it was
    before the call. *)
Theorem hash_error_leaves_outputs rgbBuffer grayBuffer width height
    hashOut qualityOut :
  (fst (pdq_hash_from_rgb rt rgbBuffer width height hashOut qualityOut) <> 0 ->
   snd (pdq_hash_from_rgb rt rgbBuffer width height hashOut qualityOut)
   = (hashOut, qualityOut)) /\
  (fst (pdq_hash_from_gray rt grayBuffer width height hashOut qualityOut) <> 0 ->
   snd (pdq_hash_from_gray rt grayBuffer width height hashOut qualityOut)
   = (hashOut, qualityOut)).
Proof.
  split.
  - apply (guarded_error_leaves_outputs _
             (fun buf => rgb_computation rt buf width height)).
    intros buf s. apply hash_from_rgb_try_run.
  - apply (guarded_error_leaves_outputs _
             (fun buf => gray_computation rt buf width height)).
    intros buf s. apply hash_from_gray_try_run.
Qed.

(** C6: [pdq_hash_pdq_hash_from_rgb rt] and [pdq_hash_pdq_hash_from_gray rt] return -1 exactly
    for a null pointer, -2 exactly for non-null pointers with a width or
    height that is not positive, -3 exactly when the computation throws,
    and 0 exactly when it succeeds. *)
Theorem hash_error_sentinels rgbBuffer grayBuffer width height
    hashOut qualityOut :
  signals (fst (pdq_hash_from_rgb rt rgbBuffer width height hashOut qualityOut))
    rgbBuffer width height hashOut qualityOut
    (fun buf => rgb_computation rt buf width height) /\
  signals (fst (pdq_hash_from_gray rt grayBuffer width height hashOut qualityOut))
    grayBuffer width height hashOut qualityOut
    (fun buf => gray_computation rt buf width height).
Proof.
  split.
  - apply guarded_signals. intros buf s. apply hash_from_rgb_try_run.
  - apply guarded_signals. intros buf s. apply hash_from_gray_try_run.
Qed.

End HashingProperties.

Lemma hash_error_leaves_outputs_witness :
  snd (pdq_hash_from_rgb (fixed_runtime true None)
         (Some [10; 20; 30]) 1 1 (Some (replicate 32 5)) (Some 9))
  = (Some (replicate 32 5), Some 9).
Proof.
  apply (proj1 (hash_error_leaves_outputs (fixed_runtime true None)
                  (Some [10; 20; 30]) None 1 1
                  (Some (replicate 32 5)) (Some 9))).
  vm_compute. discriminate.
Defined.

(** The four outcomes on a small runtime. *)
Example hash_from_gray_success :
  pdq_hash_from_gray (fixed_runtime true (Some (replicate 16 4660, 77)))
    (Some [1; 2; 3; 4]) 2 2 (Some (replicate 32 0)) (Some 0)
  = (0, (Some (concat (replicate 16 [18; 52])), Some 77)).
Proof. vm_compute. reflexivity. Qed.

Example hash_from_rgb_success :
  pdq_hash_from_rgb (fixed_runtime true (Some (replicate 16 4660, 77)))
    (Some [10; 20; 30]) 1 1 (Some (replicate 32 0)) (Some 0)
  = (0, (Some (concat (replicate 16 [18; 52])), Some 77)).
Proof. vm_compute. reflexivity. Qed.

Example hash_from_rgb_heap_full :
  pdq_hash_from_rgb (fixed_runtime false (Some (replicate 16 4660, 77)))
    (Some [10; 20; 30]) 1 1 (Some (replicate 32 0)) (Some 0)
  = (-3, (Some (replicate 32 0), Some 0)).
Proof. vm_compute. reflexivity. Qed.

Example hash_from_rgb_zero_width :
  pdq_hash_from_rgb (fixed_runtime true (Some (replicate 16 4660, 77)))
    (Some [10; 20; 30]) 0 1 (Some (replicate 32 0)) (Some 0)
  = (-2, (Some (replicate 32 0), Some 0)).
Proof. vm_compute. reflexivity. Qed.

Example hash_from_rgb_null_before_dimensions :
  pdq_hash_from_rgb (fixed_runtime true (Some (replicate 16 4660, 77)))
    None 0 0 (Some (replicate 32 0)) (Some 0)
  = (-1, (Some (replicate 32 0), Some 0)).
Proof. vm_compute. reflexivity. Qed.

(** * Further properties of the boundary functions *)

(** ** Loops in closed form *)

Lemma flat_map_pairs_length {A : Type} (hi lo : nat -> A) n : forall start,
  length (flat_map (fun i => [hi i; lo i]) (seq start n)) = (n * 2)%nat.
Proof.
  induction n as [|n IH]; intros start; simpl.
  - reflexivity.
  - now rewrite IH.
Qed.

Lemma flat_map_pairs_lookup {A : Type} (hi lo : nat -> A) n :
  forall start k, (k < n)%nat ->
  flat_map (fun i => [hi i; lo i]) (seq start n) !! (k * 2)%nat
  = Some (hi (start + k)%nat) /\
  flat_map (fun i => [hi i; lo i]) (seq start n) !! (k * 2 + 1)%nat
  = Some (lo (start + k)%nat).
Proof.
  induction n as [|n IH]; intros start k Hk; [lia|].
  destruct k as [|k]; simpl.
  - now rewrite Nat.add_0_r.
  - destruct (IH (S start) k ltac:(lia)) as [H1 H2].
    rewrite H1, H2. now rewrite Nat.add_succ_r.
Qed.

(** A loop that stores a pair per round overwrites the front of the list
    and leaves the rest. *)
Lemma pair_loop_closed {A : Type} (hi lo : nat -> A)
    (body : nat -> list A -> list A) n l :
  (forall i l, body i l
     = <[(i * 2 + 1)%nat := lo i]> (<[(i * 2)%nat := hi i]> l)) ->
  (n * 2 <= length l)%nat ->
  for_range n 0 body l
  = flat_map (fun i => [hi i; lo i]) (seq 0 n) ++ drop (n * 2) l.
Proof.
  intros Hbody Hlen. apply list_eq. intros j.
  pose proof (flat_map_pairs_length hi lo n 0) as Hfl.
  destruct (decide (j < n * 2)%nat) as [Hj|Hj].
  - rewrite lookup_app_l by lia.
    destruct (Nat.Even_or_Odd j) as [[k ->]|[k ->]].
    + rewrite (Nat.mul_comm 2 k).
      destruct (pair_loop_inside hi lo body Hbody n 0 l k) as [H1 _];
        [lia|lia|].
      destruct (flat_map_pairs_lookup hi lo n 0 k ltac:(lia)) as [H2 _].
      now rewrite H1, H2.
    + rewrite (Nat.mul_comm 2 k).
      destruct (pair_loop_inside hi lo body Hbody n 0 l k) as [_ H1];
        [lia|lia|].
      destruct (flat_map_pairs_lookup hi lo n 0 k ltac:(lia)) as [_ H2].
      now rewrite H1, H2.
  - rewrite lookup_app_r by lia. rewrite Hfl, lookup_drop.
    replace (n * 2 + (j - n * 2))%nat with j by lia.
    apply (pair_loop_outside hi lo body Hbody). lia.
Qed.

(** ** pdq_hash_to_hex in closed form *)

Lemma hash_to_hex_text_eq (h : list Z) (hexbuf : list ascii) :
  Forall is_byte h -> (65 <= length hexbuf)%nat ->
  pdq_hash_to_hex (Some h) (Some hexbuf)
  = Some (hex_text h ++ drop 65 hexbuf).
Proof.
  intros Hh Hlen. unfold pdq_hash_to_hex, hex_text. f_equal.
  rewrite (pair_loop_closed
             (fun i => lower_hex_digit (read h i / 16))
             (fun i => lower_hex_digit (read h i mod 16))).
  - set (digits := flat_map _ (seq 0 32)).
    assert (Hd : length digits = 64%nat)
      by (unfold digits; now rewrite flat_map_pairs_length).
    destruct (lookup_lt_is_Some_2 hexbuf 64 ltac:(lia)) as [c Hc].
    change (32 * 2)%nat with 64%nat. rewrite (drop_S _ _ _ Hc).
    rewrite insert_app_r_alt by lia. rewrite Hd.
    change (<[(64 - 64)%nat := zero]> (c :: drop 65 hexbuf))
      with (zero :: drop 65 hexbuf).
    now rewrite <- app_assoc.
  - intros i l. unfold hash_to_hex_body.
    pose proof (nibbles_of_byte _ (read_is_byte h i Hh)) as (Hd & Hm & _).
    rewrite high_nibble, low_nibble by now apply read_is_byte.
    now rewrite (hexChars_lower _ Hd), (hexChars_lower _ Hm).
  - simpl. lia.
Qed.

(** X1: on non-null pointers, a hash of bytes and a buffer of at least 65
    characters, [pdq_hash_to_hex] overwrites characters 0..64 with the
    text of the first 32 bytes and leaves every character behind them. *)
Theorem hash_to_hex_text (h : list Z) (hexbuf : list ascii) :
  Forall is_byte h -> (65 <= length hexbuf)%nat ->
  pdq_hash_to_hex (Some h) (Some hexbuf)
  = Some (hex_text h ++ drop 65 hexbuf).
Proof. apply hash_to_hex_text_eq. Qed.

Lemma hash_to_hex_text_witness :
  pdq_hash_to_hex (Some (replicate 32 171))
    (Some (replicate 70 "?"%char))
  = Some (hex_text (replicate 32 171) ++ drop 65 (replicate 70 "?"%char)).
Proof.
  apply hash_to_hex_text.
  - repeat constructor; unfold is_byte; lia.
  - simpl. lia.
Defined.

(** ** The byte layout of the hash words *)

Lemma high_byte_any (w : Z) : Z.land (Z.shiftr w 8) 255 = w / 256 mod 256.
Proof.
  change 255 with (Z.ones 8). rewrite Z.land_ones by lia.
  now rewrite Z.shiftr_div_pow2 by lia.
Qed.

Lemma store_hash_closed (w out : list Z) :
  (32 <= length out)%nat ->
  store_hash w out = word_bytes w ++ drop 32 out.
Proof.
  intros Hlen. unfold store_hash, word_bytes.
  apply (pair_loop_closed (fun i => read w i / 256 mod 256)
                          (fun i => read w i mod 256)).
  - intros i l. unfold store_hash_body.
    now rewrite high_byte_any, low_byte.
  - simpl. lia.
Qed.

Lemma word_bytes_lookup (w : list Z) (i : nat) :
  (i < 16)%nat ->
  word_bytes w !! (i * 2)%nat = Some (read w i / 256 mod 256) /\
  word_bytes w !! (i * 2 + 1)%nat = Some (read w i mod 256).
Proof.
  intros Hi.
  apply (flat_map_pairs_lookup (fun i => read w i / 256 mod 256)
                               (fun i => read w i mod 256) 16 0 i Hi).
Qed.

Lemma word_bytes_is_hash (w : list Z) : is_hash (word_bytes w).
Proof.
  split.
  - unfold word_bytes. now rewrite flat_map_pairs_length.
  - unfold word_bytes. apply Forall_forall. intros b Hb.
    apply list_elem_of_In, in_flat_map in Hb.
    destruct Hb as (i & _ & [<-|[<-|[]]]); unfold is_byte;
      apply Z.mod_pos_bound; lia.
Qed.

Lemma load_hash_length (hash : list Z) : length (load_hash hash) = 16%nat.
Proof.
  unfold load_hash. rewrite for_range_length.
  - apply length_replicate.
  - intros i l. unfold load_hash_body. apply length_insert.
Qed.

Lemma load_store_hash_eq (w out : list Z) :
  length w = 16%nat -> Forall is_word16 w -> (32 <= length out)%nat ->
  load_hash (store_hash w out) = w.
Proof.
  intros Hwlen Hw Hout. rewrite store_hash_closed by exact Hout.
  apply list_eq. intros i.
  destruct (decide (i < 16)%nat) as [Hi|Hi].
  - rewrite read_lookup by (rewrite load_hash_length; lia).
    rewrite (read_lookup w) by lia. f_equal.
    rewrite load_hash_read by exact Hi.
    destruct (word_bytes_lookup w i Hi) as [H1 H2].
    destruct (word_bytes_is_hash w) as [Hl _].
    unfold read at 1 2.
    rewrite !lookup_app_l by lia.
    rewrite H1, H2. simpl.
    pose proof (read_is_word16 w i Hw) as Hr. unfold is_word16 in Hr.
    rewrite word_of_bytes_value
      by (unfold is_byte; apply Z.mod_pos_bound; lia).
    rewrite (Z.mod_small (read w i / 256)).
    + symmetry. apply Z.div_mod. lia.
    + split; [apply Z.div_pos; lia|apply Z.div_lt_upper_bound; lia].
  - rewrite !lookup_ge_None_2; [reflexivity|lia|].
    rewrite load_hash_length. lia.
Qed.

(** X2: the two conversions of the file are inverse to each other. The
    bytes that [pdq_hash_from_rgb] and [pdq_hash_from_gray] store for the
    16 words of a hash (lines 89-92, 171-174) are loaded back as the same
    16 words by [pdq_hamming_distance] (lines 206-209). *)
Theorem load_store_hash (w out : list Z) :
  length w = 16%nat -> Forall is_word16 w -> (32 <= length out)%nat ->
  load_hash (store_hash w out) = w.
Proof. apply load_store_hash_eq. Qed.

Lemma load_store_hash_witness :
  load_hash (store_hash (replicate 16 4660) (replicate 32 0))
  = replicate 16 4660.
Proof.
  apply load_store_hash.
  - reflexivity.
  - repeat constructor; unfold is_word16; lia.
  - simpl. lia.
Defined.

(** ** pdq_hex_to_hash: what it reads and what it writes *)

Lemma hex_value_to_lower (c : ascii) : hex_value (to_lower c) = hex_value c.
Proof.
  destruct c as [[] [] [] [] [] [] [] []]; vm_compute; reflexivity.
Qed.

Lemma lower_hex_digit_value (c : ascii) :
  is_hex_digit c = true -> lower_hex_digit (hex_value c) = to_lower c.
Proof.
  destruct c as [[] [] [] [] [] [] [] []]; vm_compute; intros H;
    first [reflexivity | discriminate H].
Qed.

(** The loop looks at its text through [hex_value] only, and only at the
    characters of its range. *)
Lemma hex_to_hash_loop_ext n : forall i s1 s2 out,
  (forall k, (i * 2 <= k < (i + n) * 2)%nat ->
     hex_value (read_char s1 k) = hex_value (read_char s2 k)) ->
  hex_to_hash_loop n i s1 out = hex_to_hash_loop n i s2 out.
Proof.
  induction n as [|n IH]; intros i s1 s2 out Hs.
  - reflexivity.
  - cbn [hex_to_hash_loop].
    rewrite (Hs (i * 2)%nat), (Hs (i * 2 + 1)%nat) by lia.
    destruct ((hex_value (read_char s2 (i * 2)) <? 0)
              || (hex_value (read_char s2 (i * 2 + 1)) <? 0));
      [reflexivity|].
    apply IH. intros k Hk. apply Hs. lia.
Qed.

(** X3: [pdq_hex_to_hash] depends on the first 64 characters of the text
    only, and not on the case of their letters: two texts whose first 64
    characters agree up to case give the same return value and leave the
    same bytes in the buffer, on success and on failure. *)
Theorem hex_to_hash_case_insensitive (s1 s2 : list ascii) (out : list Z) :
  (forall k, (k < 64)%nat ->
     to_lower (read_char s1 k) = to_lower (read_char s2 k)) ->
  pdq_hex_to_hash (Some s1) (Some out) = pdq_hex_to_hash (Some s2) (Some out).
Proof.
  intros Hs. unfold pdq_hex_to_hash.
  rewrite (hex_to_hash_loop_ext 32 0 s1 s2); [reflexivity|].
  intros k Hk.
  rewrite <- (hex_value_to_lower (read_char s1 k)).
  rewrite <- (hex_value_to_lower (read_char s2 k)).
  f_equal. apply Hs. lia.
Qed.

Lemma hex_to_hash_case_insensitive_witness :
  pdq_hex_to_hash
    (Some (list_ascii_of_string
       "00112233445566778899AABBCCDDEEFF00112233445566778899aAbBcCdDeEfFzz"))
    (Some (replicate 32 0))
  = pdq_hex_to_hash
    (Some (cstring
       "00112233445566778899aabbccddeeff00112233445566778899AaBbCcDdEeFf"))
    (Some (replicate 32 0)).
Proof.
  apply hex_to_hash_case_insensitive.
  intros k Hk. do 64 (destruct k as [|k]; [reflexivity|]). lia.
Defined.

Lemma pair_byte_is_byte (s : list ascii) (k : nat) :
  pair_ok s k = true -> is_byte (pair_byte s k).
Proof.
  unfold pair_ok, pair_byte, is_byte. intros Hok.
  apply andb_true_iff in Hok. destruct Hok as [Hh Hl].
  apply hex_value_digit in Hh, Hl. lia.
Qed.

Lemma hex_to_hash_loop_bytes n : forall i s out,
  Forall is_byte out -> Forall is_byte (snd (hex_to_hash_loop n i s out)).
Proof.
  induction n as [|n IH]; intros i s out Hout.
  - exact Hout.
  - rewrite hex_to_hash_loop_step. destruct (pair_ok s i) eqn:Hok.
    + apply IH. apply Forall_insert; [exact Hout|].
      now apply pair_byte_is_byte.
    + exact Hout.
Qed.

(** X4: whatever the text and whatever the return value,
    [pdq_hex_to_hash] keeps the size of the buffer, leaves every byte
    from index 32 on as it was, and keeps a buffer of bytes a buffer of
    bytes. *)
Theorem hex_to_hash_bounds (s : list ascii) (out : list Z) :
  exists out',
    snd (pdq_hex_to_hash (Some s) (Some out)) = Some out' /\
    length out' = length out /\
    (forall j, (32 <= j)%nat -> out' !! j = out !! j) /\
    (Forall is_byte out -> Forall is_byte out').
Proof.
  rewrite pdq_hex_to_hash_unfold. cbn [snd].
  eexists. split; [reflexivity|]. split; [|split].
  - apply hex_to_hash_loop_length.
  - intros j Hj. apply hex_to_hash_loop_outside. lia.
  - apply hex_to_hash_loop_bytes.
Qed.

Lemma hex_decode_is_hash (s : list ascii) :
  (forall i, (i < 64)%nat -> is_hex_digit (read_char s i) = true) ->
  is_hash (hex_decode s).
Proof.
  intros Hhex. split; [apply hex_decode_length|].
  apply Forall_lookup_2. intros j b Hb.
  assert (Hj : (j < 32)%nat)
    by (apply lookup_lt_Some in Hb; rewrite hex_decode_length in Hb; lia).
  rewrite hex_decode_lookup in Hb by exact Hj. injection Hb as <-.
  apply pair_byte_is_byte. apply pairs_ok_chars; assumption.
Qed.

Lemma read_hex_decode (s : list ascii) (k : nat) :
  (k < 32)%nat -> read (hex_decode s) k = pair_byte s k.
Proof.
  intros Hk. unfold read. now rewrite hex_decode_lookup by exact Hk.
Qed.

(** The text of the bytes that a text of 64 hex digits denotes is that
    text in lower case. *)
Lemma hex_text_hex_decode (s : list ascii) :
  (forall i, (i < 64)%nat -> is_hex_digit (read_char s i) = true) ->
  hex_text (hex_decode s) = map to_lower (take 64 s) ++ [zero].
Proof.
  intros Hhex. unfold hex_text. f_equal.
  assert (Hchar : forall i, (i < 64)%nat ->
            s !! i = Some (read_char s i)).
  { intros i Hi. specialize (Hhex i Hi). unfold read_char in *.
    destruct (s !! i); [reflexivity|discriminate]. }
  assert (Hlen : (64 <= length s)%nat).
  { destruct (decide (64 <= length s)%nat); [assumption|].
    pose proof (Hchar (length s) ltac:(lia)) as Hc.
    apply lookup_lt_Some in Hc. lia. }
  change (map to_lower (take 64 s)) with (to_lower <$> take 64 s).
  apply list_eq. intros j.
  pose proof (flat_map_pairs_length
    (fun i => lower_hex_digit (read (hex_decode s) i / 16))
    (fun i => lower_hex_digit (read (hex_decode s) i mod 16)) 32 0) as Hfl.
  destruct (decide (j < 64)%nat) as [Hj|Hj].
  - rewrite list_lookup_fmap, lookup_take_lt, (Hchar j) by lia.
    assert (Hdigits : forall k, (k < 32)%nat ->
              pair_byte s k / 16 = hex_value (read_char s (k * 2)) /\
              pair_byte s k mod 16 = hex_value (read_char s (k * 2 + 1))).
    { intros k Hk. unfold pair_byte.
      pose proof (hex_value_digit _ (Hhex (k * 2)%nat ltac:(lia))) as H1.
      pose proof (hex_value_digit _ (Hhex (k * 2 + 1)%nat ltac:(lia))) as H2.
      split.
      - symmetry. apply (Z.div_unique _ _ _ (hex_value (read_char s (k * 2 + 1))));
          lia.
      - symmetry. apply (Z.mod_unique _ _ (hex_value (read_char s (k * 2))));
          lia. }
    destruct (Nat.Even_or_Odd j) as [[k ->]|[k ->]];
      rewrite (Nat.mul_comm 2 k) in *;
      destruct (flat_map_pairs_lookup
        (fun i => lower_hex_digit (read (hex_decode s) i / 16))
        (fun i => lower_hex_digit (read (hex_decode s) i mod 16))
        32 0 k ltac:(lia)) as [H1 H2];
      destruct (Hdigits k ltac:(lia)) as [Hd Hm].
    + rewrite H1. cbn [fmap option_fmap option_map Nat.add]. f_equal.
      rewrite read_hex_decode, Hd by lia.
      apply lower_hex_digit_value. apply Hhex. lia.
    + rewrite H2. cbn [fmap option_fmap option_map Nat.add]. f_equal.
      rewrite read_hex_decode, Hm by lia.
      apply lower_hex_digit_value. apply Hhex. lia.
  - rewrite !lookup_ge_None_2; [reflexivity| |].
    + rewrite length_fmap, length_take. lia.
    + lia.
Qed.

(** X5: the round trip from text to bytes and back. For a text that
    starts with 64 hex digits, [pdq_hex_to_hash] succeeds, and
    [pdq_hash_to_hex] on the bytes it stored writes the same 64
    characters in lower case, then the terminator. *)
Theorem hex_to_hash_to_hex (s : list ascii) (out : list Z)
    (hexbuf : list ascii) :
  (forall i, (i < 64)%nat -> is_hex_digit (read_char s i) = true) ->
  length out = 32%nat -> (65 <= length hexbuf)%nat ->
  exists h,
    pdq_hex_to_hash (Some s) (Some out) = (0, Some h) /\
    pdq_hash_to_hex (Some h) (Some hexbuf)
    = Some (map to_lower (take 64 s) ++ zero :: drop 65 hexbuf).
Proof.
  intros Hhex Hout Hbuf. exists (hex_decode s).
  split; [now apply hex_to_hash_success|].
  destruct (hex_decode_is_hash s Hhex) as [_ Hb].
  rewrite hash_to_hex_text_eq by assumption.
  rewrite hex_text_hex_decode by exact Hhex.
  now rewrite <- app_assoc.
Qed.

Lemma hex_to_hash_to_hex_witness :
  exists h,
    pdq_hex_to_hash (Some (cstring
      "00112233445566778899AABBCCDDEEFF00112233445566778899aAbBcCdDeEfF"))
      (Some (replicate 32 0)) = (0, Some h) /\
    pdq_hash_to_hex (Some h) (Some (replicate 65 "?"%char))
    = Some (map to_lower (take 64 (cstring
        "00112233445566778899AABBCCDDEEFF00112233445566778899aAbBcCdDeEfF"))
            ++ zero :: drop 65 (replicate 65 "?"%char)).
Proof.
  apply hex_to_hash_to_hex.
  - intros i Hi. do 64 (destruct i as [|i]; [reflexivity|]). lia.
  - reflexivity.
  - simpl. lia.
Defined.

(** ** pdq_hamming_distance as a metric on 32-byte hashes *)

Lemma hamming_distance_bits (h1 h2 : list Z) :
  Forall is_byte h1 -> Forall is_byte h2 ->
  pdq_hamming_distance (Some h1) (Some h2) = bit_differences h1 h2.
Proof.
  intros Hb1 Hb2. rewrite hamming_distance_unfold.
  pose proof (sum_loop_pairs
                (fun k => byte_differences (read h1 k) (read h2 k)) 16 0)
    as Hpairs.
  etransitivity; [|exact Hpairs].
  apply sum_loop_ext. intros i Hi.
  apply hammingNorm16_xor_words; now apply read_is_byte.
Qed.

Lemma hamming_distance_range (h1 h2 : list Z) :
  0 <= pdq_hamming_distance (Some h1) (Some h2) <= 256.
Proof.
  rewrite hamming_distance_unfold.
  pose proof (sum_loop_bounds
    (fun i => hammingNorm16
       (Z.lxor (word_of_bytes (read h1 (i * 2)) (read h1 (i * 2 + 1)))
               (word_of_bytes (read h2 (i * 2)) (read h2 (i * 2 + 1)))))
    16 16 0 ltac:(intros; apply hammingNorm16_range)) as H.
  simpl Z.of_nat in H. lia.
Qed.

(** X6: [pdq_hamming_distance] returns -1 exactly when one of its
    pointers is null; on non-null pointers the result is in [0, 256],
    also for buffers that are not well-formed hashes, so the error value
    cannot be taken for a distance. *)
Theorem hamming_distance_sentinel (hash1 hash2 : option (list Z)) :
  (pdq_hamming_distance hash1 hash2 = -1 <->
   hash1 = None \/ hash2 = None) /\
  (is_Some hash1 -> is_Some hash2 ->
   0 <= pdq_hamming_distance hash1 hash2 <= 256).
Proof.
  destruct hash1 as [h1|], hash2 as [h2|]; split;
    try (split; [intros _; auto|intros _; reflexivity]);
    try (intros [? ?] [? ?]; discriminate).
  - pose proof (hamming_distance_range h1 h2).
    split; [lia|intros [H1|H1]; discriminate].
  - intros _ _. apply hamming_distance_range.
Qed.

Lemma hamming_distance_sentinel_witness :
  0 <= pdq_hamming_distance (Some [1; 2; 3]) (Some []) <= 256.
Proof.
  apply (proj2 (hamming_distance_sentinel (Some [1; 2; 3]) (Some []))).
  - eexists; reflexivity.
  - eexists; reflexivity.
Defined.

Lemma sum_loop_zero (f : nat -> Z) n : forall start,
  (forall i, 0 <= f i) ->
  0 <= for_range n start (fun i acc => acc + f i) 0 /\
  (for_range n start (fun i acc => acc + f i) 0 = 0 ->
   forall i, (start <= i < start + n)%nat -> f i = 0).
Proof.
  induction n as [|n IH]; intros start Hf; simpl for_range.
  - split; [lia|intros _ i Hi; lia].
  - rewrite sum_loop_acc. destruct (IH (S start) Hf) as [Hpos Hzero].
    pose proof (Hf start). split; [lia|].
    intros Hsum i Hi. destruct (decide (i = start)) as [->|Hne]; [lia|].
    apply Hzero; lia.
Qed.

Lemma byte_differences_nonneg (a b : Z) : 0 <= byte_differences a b.
Proof.
  unfold byte_differences.
  apply (sum_loop_bounds
    (fun j => Z.b2z (xorb (Z.testbit a (Z.of_nat j))
                          (Z.testbit b (Z.of_nat j)))) 1 8 0).
  intros. apply b2z_range.
Qed.

Lemma byte_differences_same (a : Z) : byte_differences a a = 0.
Proof.
  unfold byte_differences.
  rewrite (sum_loop_ext _ (fun _ => 0)); [reflexivity|].
  intros j _. now rewrite xorb_nilpotent.
Qed.

(** Two bytes that differ at no position are the same byte. *)
Lemma byte_differences_zero (a b : Z) :
  is_byte a -> is_byte b -> byte_differences a b = 0 -> a = b.
Proof.
  intros Ha Hb Hd.
  pose (f := fun a => forallb (fun b => implb (byte_differences a b =? 0)
                                              (a =? b))
                        (map Z.of_nat (seq 0 256))).
  assert (Hf : f a = true)
    by (apply (range_forallb f 256); [vm_compute; reflexivity|exact Ha]).
  pose proof (range_forallb _ 256 Hf b Hb) as Hab. cbv beta in Hab.
  rewrite Hd in Hab. simpl in Hab. now apply Z.eqb_eq.
Qed.

(** X7: on 32-byte hashes [pdq_hamming_distance] is 0 exactly for equal
    hashes. *)
Theorem hamming_distance_zero_iff (h1 h2 : list Z) :
  is_hash h1 -> is_hash h2 ->
  (pdq_hamming_distance (Some h1) (Some h2) = 0 <-> h1 = h2).
Proof.
  intros [Hl1 Hb1] [Hl2 Hb2].
  rewrite hamming_distance_bits by assumption. unfold bit_differences.
  split.
  - intros Hsum.
    destruct (sum_loop_zero
      (fun i => byte_differences (read h1 i) (read h2 i)) 32 0
      ltac:(intros; apply byte_differences_nonneg)) as [_ Hzero].
    specialize (Hzero Hsum).
    apply list_eq. intros i. destruct (decide (i < 32)%nat) as [Hi|Hi].
    + rewrite !read_lookup by lia. f_equal.
      apply byte_differences_zero; try now apply read_is_byte.
      apply Hzero. lia.
    + rewrite !lookup_ge_None_2; [reflexivity|lia|lia].
  - intros <-.
    rewrite (sum_loop_ext _ (fun _ => 0)); [reflexivity|].
    intros i _. apply byte_differences_same.
Qed.

Lemma hamming_distance_zero_iff_witness :
  pdq_hamming_distance (Some (replicate 32 7)) (Some (replicate 32 7)) = 0
  <-> replicate 32 7 = replicate 32 7.
Proof.
  apply hamming_distance_zero_iff;
    (split; [reflexivity|repeat constructor; unfold is_byte; lia]).
Defined.

(** X8: [pdq_hamming_distance] reads the first 32 bytes of each buffer
    only: what follows them does not change the result. *)
Theorem hamming_distance_first_32 (h1 h2 t1 t2 : list Z) :
  length h1 = 32%nat -> length h2 = 32%nat ->
  pdq_hamming_distance (Some (h1 ++ t1)) (Some (h2 ++ t2))
  = pdq_hamming_distance (Some h1) (Some h2).
Proof.
  intros Hl1 Hl2. rewrite !hamming_distance_unfold.
  apply sum_loop_ext. intros i Hi. unfold read.
  now rewrite !lookup_app_l by lia.
Qed.

Lemma hamming_distance_first_32_witness :
  pdq_hamming_distance (Some (replicate 32 1 ++ [255; 255]))
                       (Some (replicate 32 3 ++ [0]))
  = pdq_hamming_distance (Some (replicate 32 1)) (Some (replicate 32 3)).
Proof. apply hamming_distance_first_32; reflexivity. Defined.

(** X9: the distance that [pdq_hamming_distance] computes from the bytes
    stored for two hashes is [Hash256::hammingDistance] of the two hashes
    themselves; the detour through the 32-byte form loses nothing. *)
Theorem hamming_distance_of_stored (w1 w2 out1 out2 : list Z) :
  length w1 = 16%nat -> Forall is_word16 w1 -> (32 <= length out1)%nat ->
  length w2 = 16%nat -> Forall is_word16 w2 -> (32 <= length out2)%nat ->
  pdq_hamming_distance (Some (store_hash w1 out1)) (Some (store_hash w2 out2))
  = Hash256_hammingDistance w1 w2.
Proof.
  intros. unfold pdq_hamming_distance.
  now rewrite !load_store_hash_eq by assumption.
Qed.

Lemma hamming_distance_of_stored_witness :
  pdq_hamming_distance (Some (store_hash (replicate 16 4660) (replicate 32 0)))
                       (Some (store_hash (replicate 16 4661) (replicate 40 9)))
  = Hash256_hammingDistance (replicate 16 4660) (replicate 16 4661).
Proof.
  apply hamming_distance_of_stored;
    first [reflexivity | simpl; lia
          | repeat constructor; unfold is_word16; lia].
Defined.

(** ** The text of a stored hash *)

Lemma hex_decode_of_digits (h : list Z) (hex : list ascii) :
  is_hash h ->
  (forall i, (i < 32)%nat ->
     hex !! (i * 2)%nat = Some (lower_hex_digit (read h i / 16)) /\
     hex !! (i * 2 + 1)%nat = Some (lower_hex_digit (read h i mod 16))) ->
  hex_decode hex = h.
Proof.
  intros [Hlen Hh] Hchars. apply list_eq. intros j.
  destruct (decide (j < 32)%nat) as [Hj|Hj].
  - rewrite hex_decode_lookup, read_lookup by lia. f_equal.
    destruct (Hchars j Hj) as [H1 H2].
    pose proof (nibbles_of_byte _ (read_is_byte h j Hh)) as (Hd & Hm & Hb).
    unfold pair_byte, read_char. rewrite H1, H2. simpl.
    now rewrite !hex_value_lower.
  - rewrite !lookup_ge_None_2; [reflexivity|lia|].
    rewrite hex_decode_length. lia.
Qed.

Lemma hex_decode_take (s : list ascii) : hex_decode (take 64 s) = hex_decode s.
Proof.
  unfold hex_decode. apply map_ext_in. intros k Hk. apply in_seq in Hk.
  unfold pair_byte, read_char. now rewrite !lookup_take_lt by lia.
Qed.

(** X10: [pdq_hash_to_hex] is injective on 32-byte hashes: two hashes
    whose texts have the same 64 characters are the same hash. *)
Theorem hash_to_hex_injective (h1 h2 : list Z) (buf1 buf2 hex1 hex2 : list ascii) :
  is_hash h1 -> is_hash h2 ->
  (65 <= length buf1)%nat -> (65 <= length buf2)%nat ->
  pdq_hash_to_hex (Some h1) (Some buf1) = Some hex1 ->
  pdq_hash_to_hex (Some h2) (Some buf2) = Some hex2 ->
  take 64 hex1 = take 64 hex2 ->
  h1 = h2.
Proof.
  intros Hh1 Hh2 Hb1 Hb2 He1 He2 Htake.
  destruct (hash_to_hex_chars h1 buf1 (proj2 Hh1) Hb1)
    as (x1 & Hx1 & _ & Hc1 & _).
  destruct (hash_to_hex_chars h2 buf2 (proj2 Hh2) Hb2)
    as (x2 & Hx2 & _ & Hc2 & _).
  rewrite He1 in Hx1. rewrite He2 in Hx2.
  injection Hx1 as <-. injection Hx2 as <-.
  rewrite <- (hex_decode_of_digits h1 hex1 Hh1 Hc1).
  rewrite <- (hex_decode_of_digits h2 hex2 Hh2 Hc2).
  rewrite <- (hex_decode_take hex1), <- (hex_decode_take hex2).
  now rewrite Htake.
Qed.

Lemma hash_to_hex_injective_witness :
  replicate 32 18 = replicate 32 18.
Proof.
  apply (hash_to_hex_injective (replicate 32 18) (replicate 32 18)
           (replicate 65 "a"%char) (replicate 66 "b"%char)
           (hex_text (replicate 32 18) ++ drop 65 (replicate 65 "a"%char))
           (hex_text (replicate 32 18) ++ drop 65 (replicate 66 "b"%char)));
    first [ split; [reflexivity|repeat constructor; unfold is_byte; lia]
          | simpl; lia
          | reflexivity ].
Defined.

Lemma word_nibbles (w : Z) :
  is_word16 w ->
  w / 256 mod 256 / 16 = w / 4096 /\
  w / 256 mod 256 mod 16 = w / 256 mod 16 /\
  w mod 256 / 16 = w / 16 mod 16 /\
  w mod 256 mod 16 = w mod 16 /\
  0 <= w / 4096 < 16.
Proof.
  unfold is_word16. intros Hw.
  repeat split; Z.to_euclidean_division_equations; lia.
Qed.

(** X11: the text of a stored hash shows each of the 16 words as four
    lowercase hex digits, most significant digit first, the words in index
    order: characters [4i .. 4i+3] are the digits of word [i]. *)
Theorem stored_hash_text (w out : list Z) (hexbuf : list ascii) :
  Forall is_word16 w -> length out = 32%nat -> (65 <= length hexbuf)%nat ->
  exists hex,
    pdq_hash_to_hex (Some (store_hash w out)) (Some hexbuf) = Some hex /\
    forall i, (i < 16)%nat ->
      hex !! (i * 4)%nat = Some (lower_hex_digit (read w i / 4096)) /\
      hex !! (i * 4 + 1)%nat = Some (lower_hex_digit (read w i / 256 mod 16)) /\
      hex !! (i * 4 + 2)%nat = Some (lower_hex_digit (read w i / 16 mod 16)) /\
      hex !! (i * 4 + 3)%nat = Some (lower_hex_digit (read w i mod 16)).
Proof.
  intros Hw Hout Hbuf.
  rewrite store_hash_closed by lia.
  rewrite drop_ge, app_nil_r by lia.
  destruct (word_bytes_is_hash w) as [Hl Hb].
  destruct (hash_to_hex_chars (word_bytes w) hexbuf Hb Hbuf)
    as (hex & Heq & _ & Hchars & _).
  exists hex. split; [exact Heq|]. intros i Hi.
  destruct (Hchars (i * 2)%nat ltac:(lia)) as [H1 H2].
  destruct (Hchars (i * 2 + 1)%nat ltac:(lia)) as [H3 H4].
  destruct (word_bytes_lookup w i Hi) as [Hhi Hlo].
  unfold read in H1, H2, H3, H4.
  rewrite Hhi in H1, H2. rewrite Hlo in H3, H4.
  cbn [default from_option id] in H1, H2, H3, H4.
  destruct (word_nibbles _ (read_is_word16 w i Hw)) as (E1 & E2 & E3 & E4 & _).
  rewrite E1 in H1. rewrite E2 in H2. rewrite E3 in H3. rewrite E4 in H4.
  replace (i * 4)%nat with (i * 2 * 2)%nat by lia.
  replace (i * 2 * 2 + 2)%nat with ((i * 2 + 1) * 2)%nat by lia.
  replace (i * 2 * 2 + 3)%nat with ((i * 2 + 1) * 2 + 1)%nat by lia.
  auto.
Qed.

Lemma stored_hash_text_witness :
  exists hex,
    pdq_hash_to_hex (Some (store_hash (replicate 16 4660) (replicate 32 0)))
      (Some (replicate 65 "?"%char)) = Some hex /\
    hex !! 0%nat = Some "1"%char.
Proof.
  destruct (stored_hash_text (replicate 16 4660) (replicate 32 0)
              (replicate 65 "?"%char)) as (hex & Heq & Hd).
  - repeat constructor; unfold is_word16; lia.
  - reflexivity.
  - simpl. lia.
  - exists hex. split; [exact Heq|].
    destruct (Hd 0%nat ltac:(lia)) as [H0 _]. exact H0.
Defined.

(** ** The channels of an RGB buffer *)

Lemma store_loop_lookup {A : Type} (f : nat -> A)
    (body : nat -> list A -> list A) :
  (forall i l, body i l = <[i := f i]> l) ->
  forall n start l k,
    (start + n <= length l)%nat -> (start <= k < start + n)%nat ->
    for_range n start body l !! k = Some (f k).
Proof.
  intros Hbody.
  assert (Hout : forall n start l j, (j < start)%nat ->
            for_range n start body l !! j = l !! j).
  { induction n as [|n IH]; intros start l j Hj; simpl; [reflexivity|].
    rewrite IH by lia. rewrite Hbody. apply list_lookup_insert_ne. lia. }
  induction n as [|n IH]; intros start l k Hlen Hk; simpl; [lia|].
  destruct (decide (k = start)) as [->|Hne].
  - rewrite Hout by lia. rewrite Hbody. apply list_lookup_insert_eq. lia.
  - apply IH; [rewrite Hbody, length_insert|]; lia.
Qed.

(** The loop of lines 56-60 is three loops side by side. *)
Lemma split_channels_loop (rgbBuffer : list Z) n : forall start r g b,
  for_range n start (split_channels_body rgbBuffer) (r, g, b)
  = (for_range n start (fun i l => <[i := read rgbBuffer (i * 3 + 0)]> l) r,
     for_range n start (fun i l => <[i := read rgbBuffer (i * 3 + 1)]> l) g,
     for_range n start (fun i l => <[i := read rgbBuffer (i * 3 + 2)]> l) b).
Proof.
  induction n as [|n IH]; intros start r g b; simpl.
  - reflexivity.
  - apply IH.
Qed.

(** X12: the loop of lines 56-60 takes the interleaved buffer apart:
    each channel has one entry per pixel, and pixel [i] of the red, green
    and blue channel is byte [3i], [3i+1] and [3i+2] of the buffer. *)
Theorem split_channels_pixels (rgbBuffer : list Z) (n : Z) (i : nat) :
  (i < Z.to_nat n)%nat ->
  exists r g b,
    split_channels rgbBuffer n = (r, g, b) /\
    length r = Z.to_nat n /\ length g = Z.to_nat n /\
    length b = Z.to_nat n /\
    r !! i = Some (read rgbBuffer (i * 3)) /\
    g !! i = Some (read rgbBuffer (i * 3 + 1)) /\
    b !! i = Some (read rgbBuffer (i * 3 + 2)).
Proof.
  intros Hi. unfold split_channels. rewrite split_channels_loop.
  do 3 eexists. split; [reflexivity|].
  repeat split.
  - rewrite for_range_length; [apply length_replicate|].
    intros; apply length_insert.
  - rewrite for_range_length; [apply length_replicate|].
    intros; apply length_insert.
  - rewrite for_range_length; [apply length_replicate|].
    intros; apply length_insert.
  - rewrite (store_loop_lookup (fun i => read rgbBuffer (i * 3 + 0)));
      [now rewrite Nat.add_0_r|reflexivity| |lia].
    rewrite length_replicate. lia.
  - apply (store_loop_lookup (fun i => read rgbBuffer (i * 3 + 1)));
      [reflexivity| |lia].
    rewrite length_replicate. lia.
  - apply (store_loop_lookup (fun i => read rgbBuffer (i * 3 + 2)));
      [reflexivity| |lia].
    rewrite length_replicate. lia.
Qed.

Lemma split_channels_pixels_witness :
  exists r g b,
    split_channels [1; 2; 3; 4; 5; 6] 2 = (r, g, b) /\
    r !! 1%nat = Some 4 /\ g !! 1%nat = Some 5 /\ b !! 1%nat = Some 6.
Proof.
  destruct (split_channels_pixels [1; 2; 3; 4; 5; 6] 2 1)
    as (r & g & b & Heq & _ & _ & _ & Hr & Hg & Hb).
  - simpl. lia.
  - exists r, g, b. auto.
Defined.

(** ** What the hashing entry points store *)

Section HashingOutputs.

Variable rt : Runtime.

Lemma guarded_success body computation
    buffer width height (out : list Z) qualityOut :
  (forall buf s, body buf s = try_result (computation buf) s) ->
  (32 <= length out)%nat ->
  fst (guarded buffer width height (Some out) qualityOut body) = 0 ->
  exists buf hash quality,
    buffer = Some buf /\ computation buf = Some (hash, quality) /\
    snd (guarded buffer width height (Some out) qualityOut body)
    = (Some (word_bytes hash ++ drop 32 out), Some quality).
Proof.
  intros Hbody Hlen. rewrite (guarded_run _ _ _ _ _ _ _ Hbody).
  destruct buffer as [buf|], qualityOut as [q|]; try discriminate.
  destruct ((width <=? 0) || (height <=? 0)); [discriminate|].
  destruct (computation buf) as [[hash quality]|] eqn:Hc; [|discriminate].
  intros _. exists buf, hash, quality. cbn [fst snd].
  now rewrite store_hash_closed by exact Hlen.
Qed.

(** X13: when [pdq_hash_from_rgb] or [pdq_hash_from_gray] returns 0, the
    first 32 bytes behind [hashOut] are the 16 words of the computed hash,
    high byte first (each byte reduced to 8 bits), none of the old bytes
    is left among them, the bytes behind them are untouched, and
    [qualityOut] holds the computed quality. *)
Theorem hash_success_outputs rgbBuffer grayBuffer width height
    (out : list Z) qualityOut :
  (32 <= length out)%nat ->
  (fst (pdq_hash_from_rgb rt rgbBuffer width height (Some out) qualityOut) = 0 ->
   exists buf hash quality,
     rgbBuffer = Some buf /\
     rgb_computation rt buf width height = Some (hash, quality) /\
     snd (pdq_hash_from_rgb rt rgbBuffer width height (Some out) qualityOut)
     = (Some (word_bytes hash ++ drop 32 out), Some quality)) /\
  (fst (pdq_hash_from_gray rt grayBuffer width height (Some out) qualityOut) = 0 ->
   exists buf hash quality,
     grayBuffer = Some buf /\
     gray_computation rt buf width height = Some (hash, quality) /\
     snd (pdq_hash_from_gray rt grayBuffer width height (Some out) qualityOut)
     = (Some (word_bytes hash ++ drop 32 out), Some quality)).
Proof.
  intros Hlen. split.
  - apply (guarded_success _ (fun buf => rgb_computation rt buf width height));
      [|exact Hlen].
    intros buf s. apply hash_from_rgb_try_run.
  - apply (guarded_success _ (fun buf => gray_computation rt buf width height));
      [|exact Hlen].
    intros buf s. apply hash_from_gray_try_run.
Qed.

Lemma guarded_bounds body computation
    buffer width height (out : list Z) qualityOut :
  (forall buf s, body buf s = try_result (computation buf) s) ->
  exists out',
    fst (snd (guarded buffer width height (Some out) qualityOut body))
    = Some out' /\
    length out' = length out /\
    (forall j, (32 <= j)%nat -> out' !! j = out !! j) /\
    (Forall is_byte out -> Forall is_byte out').
Proof.
  intros Hbody. rewrite (guarded_run _ _ _ _ _ _ _ Hbody).
  assert (Hsame : exists out', Some out = Some out' /\
            length out' = length out /\
            (forall j, (32 <= j)%nat -> out' !! j = out !! j) /\
            (Forall is_byte out -> Forall is_byte out'))
    by (exists out; auto).
  destruct buffer as [buf|], qualityOut as [q|]; try exact Hsame.
  destruct ((width <=? 0) || (height <=? 0)); [exact Hsame|].
  destruct (computation buf) as [[hash quality]|]; [|exact Hsame].
  cbn [fst snd]. eexists. split; [reflexivity|]. split; [|split].
  - apply store_hash_length.
  - intros j Hj. unfold store_hash.
    apply (pair_loop_outside
             (fun i => Z.land (Z.shiftr (read hash i) 8) 255)
             (fun i => Z.land (read hash i) 255)); [reflexivity|lia].
  - intros Hout. unfold store_hash.
    assert (Hgen : forall n start l, Forall is_byte l ->
              Forall is_byte (for_range n start (store_hash_body hash) l)).
    { induction n as [|n IH]; intros start l Hl; simpl; [exact Hl|].
      apply IH. unfold store_hash_body.
      apply Forall_insert; [apply Forall_insert; [exact Hl|]|];
        unfold is_byte.
      - rewrite high_byte_any. apply Z.mod_pos_bound. lia.
      - rewrite low_byte. apply Z.mod_pos_bound. lia. }
    now apply Hgen.
Qed.

(** X14: whatever they return, and whatever the library returns,
    [pdq_hash_from_rgb] and [pdq_hash_from_gray] keep the size of the
    memory behind [hashOut], leave every byte from index 32 on as it was,
    and keep a buffer of bytes a buffer of bytes. *)
Theorem hash_outputs_bounds rgbBuffer grayBuffer width height
    (out : list Z) qualityOut :
  (exists out',
     fst (snd (pdq_hash_from_rgb rt rgbBuffer width height (Some out)
                 qualityOut)) = Some out' /\
     length out' = length out /\
     (forall j, (32 <= j)%nat -> out' !! j = out !! j) /\
     (Forall is_byte out -> Forall is_byte out')) /\
  (exists out',
     fst (snd (pdq_hash_from_gray rt grayBuffer width height (Some out)
                 qualityOut)) = Some out' /\
     length out' = length out /\
     (forall j, (32 <= j)%nat -> out' !! j = out !! j) /\
     (Forall is_byte out -> Forall is_byte out')).
Proof.
  split.
  - apply (guarded_bounds _ (fun buf => rgb_computation rt buf width height)).
    intros buf s. apply hash_from_rgb_try_run.
  - apply (guarded_bounds _ (fun buf => gray_computation rt buf width height)).
    intros buf s. apply hash_from_gray_try_run.
Qed.

(** X15: dimensions whose 32-bit product [width * height] is negative
    pass the checks of lines 38-40, make the first [new] throw, and end in
    the internal-failure value -3 with the outputs untouched. *)
Theorem hash_dimension_overflow rgbBuffer grayBuffer width height
    (out : list Z) (q : Z) :
  0 < width -> 0 < height -> int_mul width height < 0 ->
  pdq_hash_from_rgb rt (Some rgbBuffer) width height (Some out) (Some q)
  = (-3, (Some out, Some q)) /\
  pdq_hash_from_gray rt (Some grayBuffer) width height (Some out) (Some q)
  = (-3, (Some out, Some q)).
Proof.
  intros Hw Hh Hneg.
  assert (Hdims : (width <=? 0) || (height <=? 0) = false).
  { apply orb_false_iff. split; apply Z.leb_gt; assumption. }
  assert (Halloc : allocated rt (int_mul width height) = false).
  { unfold allocated. apply andb_false_iff. left. now apply Z.leb_gt. }
  split.
  - unfold pdq_hash_from_rgb.
    rewrite (guarded_run _ (fun buf => rgb_computation rt buf width height))
      by (intros buf s; apply hash_from_rgb_try_run).
    rewrite Hdims. unfold rgb_computation. now rewrite Halloc.
  - unfold pdq_hash_from_gray.
    rewrite (guarded_run _ (fun buf => gray_computation rt buf width height))
      by (intros buf s; apply hash_from_gray_try_run).
    rewrite Hdims. unfold gray_computation. now rewrite Halloc.
Qed.

End HashingOutputs.

Lemma hash_success_outputs_witness :
  exists buf hash quality,
    Some [1; 2; 3; 4] = Some buf /\
    gray_computation (fixed_runtime true (Some (replicate 16 4660, 77)))
      buf 2 2 = Some (hash, quality) /\
    snd (pdq_hash_from_gray (fixed_runtime true (Some (replicate 16 4660, 77)))
           (Some [1; 2; 3; 4]) 2 2 (Some (replicate 34 9)) (Some 0))
    = (Some (word_bytes hash ++ drop 32 (replicate 34 9)), Some quality).
Proof.
  apply (proj2 (hash_success_outputs
                  (fixed_runtime true (Some (replicate 16 4660, 77)))
                  None (Some [1; 2; 3; 4]) 2 2 (replicate 34 9) (Some 0)
                  ltac:(simpl; lia))).
  reflexivity.
Defined.

Lemma hash_dimension_overflow_witness :
  pdq_hash_from_rgb (fixed_runtime true (Some (replicate 16 4660, 77)))
    (Some [1; 2; 3]) 65536 32768 (Some (replicate 32 9)) (Some 5)
  = (-3, (Some (replicate 32 9), Some 5)).
Proof.
  apply (hash_dimension_overflow
           (fixed_runtime true (Some (replicate 16 4660, 77)))
           [1; 2; 3] [] 65536 32768 (replicate 32 9) 5).
  - lia.
  - lia.
  - reflexivity.
Defined.
